(** * Heredity: exact inference over a family pedigree

    A shallow embedding of [heredity.py].  Python floats are read as exact
    rationals ([Qc]), dictionaries keyed by data as finite maps ([gmap]),
    dictionaries with a fixed set of string keys as records, sets of names
    as finite sets ([gset]), and a failing dictionary lookup or a division
    by zero as [None] in the [option] monad. *)

From Stdlib Require Import QArith Qcanon.
From stdpp Require Import gmap strings list fin_maps fin_sets.

(** ** Numbers *)

(** A decimal literal with two digits after the point, as in [0.96]. *)
Definition pct (n : Z) : Qc := Q2Qc (n # 100).

(** [a / b] in Python: raises [ZeroDivisionError] when [b] is zero. *)
Definition py_div (a b : Qc) : option Qc :=
  if decide (b = 0%Qc) then None else Some (a / b)%Qc.

(** [sum(list(d.values()))]: starts from [0] and adds from the left. *)
Definition py_sum (l : list Qc) : Qc := foldl Qcplus 0%Qc l.

Definition dict_values {K} `{Countable K} {V} (d : gmap K V) : list V :=
  (map_to_list d).*2.

(** ** Data model *)

(** One row of the pedigree, as [load_data] builds it. *)
Record person_info := PersonInfo {
  person_name : string;
  person_mother : option string;
  person_father : option string;
  person_trait : option bool
}.

(** The module constant [PROBS]. *)
Record probs := Probs {
  PROBS_gene : gmap nat Qc;
  PROBS_trait : gmap nat (gmap bool Qc);
  PROBS_mutation : Qc
}.

Definition PROBS : probs := {|
  PROBS_gene := {[ 2%nat := pct 1; 1%nat := pct 3; 0%nat := pct 96 ]};
  PROBS_trait := {[
    2%nat := {[ true := pct 65; false := pct 35 ]};
    1%nat := {[ true := pct 56; false := pct 44 ]};
    0%nat := {[ true := pct 1; false := pct 99 ]} ]};
  PROBS_mutation := pct 1
|}.

(** The same constants with another value stored under ["mutation"]. *)
Definition with_mutation (mu : Qc) (P : probs) : probs :=
  {| PROBS_gene := PROBS_gene P; PROBS_trait := PROBS_trait P;
     PROBS_mutation := mu |}.

(** The per-person accumulator built in [main]. *)
Record dist := Dist {
  dist_gene : gmap nat Qc;
  dist_trait : gmap bool Qc
}.

(** [x in s] where [x] may be [None]: [None] is a member of no set of names. *)
Definition opt_in (x : option string) (s : gset string) : bool :=
  match x with
  | Some n => bool_decide (n ∈ s)
  | None => false
  end.

(** ** [powerset] *)

(** [itertools.combinations(s, r)], in the order itertools yields them. *)
Fixpoint combinations {A} (s : list A) (r : nat) : list (list A) :=
  match r, s with
  | O, _ => [[]]
  | S _, [] => []
  | S r', x :: s' => map (cons x) (combinations s' r') ++ combinations s' r
  end.

(** The chain of [combinations(s, r)] for [r] in [range(len(s) + 1)]. *)
Definition all_combinations {A} (s : list A) : list (list A) :=
  flat_map (combinations s) (seq 0 (S (length s))).

Definition powerset (s : gset string) : list (gset string) :=
  map list_to_set (all_combinations (elements s)).

(** ** [prob_table] *)

(** The local dictionary [parent] of [prob_table]. *)
Definition parent : gmap nat Qc :=
  {[ 0%nat := pct 1; 1%nat := pct 50; 2%nat := pct 99 ]}.

(** The body of the inner loop: the entry stored at [table[mg, fg]]. *)
Definition prob_table_entry (mg fg : nat) : option (gmap nat Qc) :=
  pm ← parent !! mg;
  pf ← parent !! fg;
  let a := ((1 - pm) * (1 - pf))%Qc in
  let b := ((pm * (1 - pf)) + ((1 - pm) * pf))%Qc in
  let c := (pm * pf)%Qc in
  Some (<[2%nat := c]> (<[1%nat := b]> (<[0%nat := a]> ∅))).

(** The module constants are passed explicitly to every function, so that
    which of them a function reads can be stated; [prob_table] reads none. *)
Definition prob_table (P : probs) : option (gmap (nat * nat) (gmap nat Qc)) :=
  foldl (λ acc mg,
    foldl (λ acc fg,
      table ← acc;
      entry ← prob_table_entry mg fg;
      Some (<[(mg, fg) := entry]> table)) acc (seq 0 3))
    (Some ∅) (seq 0 3).

(** ** [joint_probability] *)

(** [d[i][j]] on a dictionary of dictionaries. *)
Definition lookup2 {K1 K2} `{Countable K1, Countable K2} {V}
    (d : gmap K1 (gmap K2 V)) (i : K1) (j : K2) : option V :=
  e ← d !! i; e !! j.

(** One iteration of the loop over [people.items()]: the pair [(pg, pt)]. *)
Definition joint_probability_person (P : probs)
    (table : gmap (nat * nat) (gmap nat Qc))
    (one_gene two_genes have_trait : gset string)
    (person : string) (value : person_info) : option (Qc * Qc) :=
  match person_mother value, person_father value with
  | None, None =>
      if bool_decide (person ∈ have_trait) then
        if bool_decide (person ∈ one_gene) then
          pg ← PROBS_gene P !! 1%nat;
          pt ← lookup2 (PROBS_trait P) 1%nat true; Some (pg, pt)
        else if bool_decide (person ∈ two_genes) then
          pg ← PROBS_gene P !! 2%nat;
          pt ← lookup2 (PROBS_trait P) 2%nat true; Some (pg, pt)
        else
          pg ← PROBS_gene P !! 0%nat;
          pt ← lookup2 (PROBS_trait P) 0%nat true; Some (pg, pt)
      else
        if bool_decide (person ∈ one_gene) then
          pg ← PROBS_gene P !! 1%nat;
          pt ← lookup2 (PROBS_trait P) 1%nat false; Some (pg, pt)
        else if bool_decide (person ∈ two_genes) then
          pg ← PROBS_gene P !! 2%nat;
          pt ← lookup2 (PROBS_trait P) 2%nat false; Some (pg, pt)
        else
          pg ← PROBS_gene P !! 0%nat;
          pt ← lookup2 (PROBS_trait P) 0%nat false; Some (pg, pt)
  | _, _ =>
      let mg :=
        if opt_in (person_mother value) one_gene then 1%nat
        else if opt_in (person_mother value) two_genes then 2%nat
        else 0%nat in
      let fg :=
        if opt_in (person_father value) one_gene then 1%nat
        else if opt_in (person_father value) two_genes then 2%nat
        else 0%nat in
      if bool_decide (person ∈ have_trait) then
        if bool_decide (person ∈ one_gene) then
          pt ← lookup2 (PROBS_trait P) 1%nat true;
          pg ← lookup2 table (mg, fg) 1%nat; Some (pg, pt)
        else if bool_decide (person ∈ two_genes) then
          pt ← lookup2 (PROBS_trait P) 2%nat true;
          pg ← lookup2 table (mg, fg) 2%nat; Some (pg, pt)
        else
          pt ← lookup2 (PROBS_trait P) 0%nat true;
          pg ← lookup2 table (mg, fg) 0%nat; Some (pg, pt)
      else
        if bool_decide (person ∈ one_gene) then
          pt ← lookup2 (PROBS_trait P) 1%nat false;
          pg ← lookup2 table (mg, fg) 1%nat; Some (pg, pt)
        else if bool_decide (person ∈ two_genes) then
          pt ← lookup2 (PROBS_trait P) 2%nat false;
          pg ← lookup2 table (mg, fg) 2%nat; Some (pg, pt)
        else
          pt ← lookup2 (PROBS_trait P) 0%nat false;
          pg ← lookup2 table (mg, fg) 0%nat; Some (pg, pt)
  end.

(** [p = pt * pg; joint_p *= p]. *)
Definition joint_probability_step (P : probs)
    (table : gmap (nat * nat) (gmap nat Qc))
    (one_gene two_genes have_trait : gset string)
    (acc : option Qc) (item : string * person_info) : option Qc :=
  joint_p ← acc;
  '(pg, pt) ← joint_probability_person P table one_gene two_genes have_trait
                 item.1 item.2;
  let p := (pt * pg)%Qc in
  Some (joint_p * p)%Qc.

Definition joint_probability (P : probs) (people : gmap string person_info)
    (one_gene two_genes have_trait : gset string) : option Qc :=
  table ← prob_table P;
  foldl (joint_probability_step P table one_gene two_genes have_trait)
    (Some 1%Qc) (map_to_list people).

(** ** [update] and [normalize] *)

(** [for key in d: d[key] = f(key, d[key])] on a dictionary changed in
    place: the keys are fixed when the loop starts, every value is read
    from the dictionary as it is when its turn comes. *)
Definition for_each_key_step {V} (f : string → V → option V)
    (acc : option (gmap string V)) (key : string) :
    option (gmap string V) :=
  cur ← acc;
  v ← cur !! key;
  v' ← f key v;
  Some (<[key := v']> cur).

Definition for_each_key {V} (f : string → V → option V)
    (d : gmap string V) : option (gmap string V) :=
  foldl (for_each_key_step f) (Some d) (elements (dom d)).

(** [d[key] += p]. *)
Definition add_at {K} `{Countable K} (d : gmap K Qc) (key : K) (p : Qc) :
    option (gmap K Qc) :=
  v ← d !! key; Some (<[key := (v + p)%Qc]> d).

(** The body of the loop of [update] for one person. *)
Definition update_person (one_gene two_genes have_trait : gset string)
    (p : Qc) (person : string) (d : dist) : option dist :=
  if bool_decide (person ∈ have_trait) then
    if bool_decide (person ∈ one_gene) then
      t ← add_at (dist_trait d) true p;
      g ← add_at (dist_gene d) 1%nat p; Some (Dist g t)
    else if bool_decide (person ∈ two_genes) then
      t ← add_at (dist_trait d) true p;
      g ← add_at (dist_gene d) 2%nat p; Some (Dist g t)
    else
      t ← add_at (dist_trait d) true p;
      g ← add_at (dist_gene d) 0%nat p; Some (Dist g t)
  else
    if bool_decide (person ∈ one_gene) then
      t ← add_at (dist_trait d) false p;
      g ← add_at (dist_gene d) 1%nat p; Some (Dist g t)
    else if bool_decide (person ∈ two_genes) then
      t ← add_at (dist_trait d) false p;
      g ← add_at (dist_gene d) 2%nat p; Some (Dist g t)
    else
      t ← add_at (dist_trait d) false p;
      g ← add_at (dist_gene d) 0%nat p; Some (Dist g t).

Definition update (probabilities : gmap string dist)
    (one_gene two_genes have_trait : gset string) (p : Qc) :
    option (gmap string dist) :=
  for_each_key (update_person one_gene two_genes have_trait p) probabilities.

(** [for value in d.keys(): d[value] *= scale]. *)
Definition scale_values {K} `{Countable K} (scale : Qc) (d : gmap K Qc) :
    gmap K Qc :=
  (λ v, (v * scale)%Qc) <$> d.

(** The body of the loop of [normalize] for one person. *)
Definition normalize_person (person : string) (d : dist) : option dist :=
  scale_gene ← py_div 1%Qc (py_sum (dict_values (dist_gene d)));
  scale_trait ← py_div 1%Qc (py_sum (dict_values (dist_trait d)));
  Some (Dist (scale_values scale_gene (dist_gene d))
             (scale_values scale_trait (dist_trait d))).

Definition normalize (probabilities : gmap string dist) :
    option (gmap string dist) :=
  for_each_key normalize_person probabilities.

(** ** [main]: the inference loop *)

(** [any(f(x) for x in l)]: stops at the first [True]. *)
Fixpoint py_any {A} (f : A → option bool) (l : list A) : option bool :=
  match l with
  | [] => Some false
  | x :: l' =>
      match f x with
      | Some true => Some true
      | Some false => py_any f l'
      | None => None
      end
  end.

(** One element of the generator under [any] in [main]. *)
Definition violates (people : gmap string person_info)
    (have_trait : gset string) (person : string) : option bool :=
  value ← people !! person;
  Some (match person_trait value with
        | Some t => negb (eqb t (bool_decide (person ∈ have_trait)))
        | None => false
        end).

Definition fails_evidence (people : gmap string person_info)
    (names have_trait : gset string) : option bool :=
  py_any (violates people have_trait) (elements names).

(** The accumulator [main] starts from. *)
Definition initial_probabilities (people : gmap string person_info) :
    gmap string dist :=
  (λ _, Dist {[ 2%nat := 0%Qc; 1%nat := 0%Qc; 0%nat := 0%Qc ]}
             {[ true := 0%Qc; false := 0%Qc ]}) <$> people.

(** The two inner loops of [main], over [one_gene] and [two_genes]. *)
Definition gene_loop (P : probs) (people : gmap string person_info)
    (names have_trait : gset string) (probabilities : gmap string dist) :
    option (gmap string dist) :=
  foldl (λ acc one_gene,
    foldl (λ acc two_genes,
      probabilities ← acc;
      p ← joint_probability P people one_gene two_genes have_trait;
      update probabilities one_gene two_genes have_trait p)
      acc (powerset (names ∖ one_gene)))
    (Some probabilities) (powerset names).

(** The body of the outer loop of [main], for one [have_trait]. *)
Definition trait_loop_body (P : probs) (people : gmap string person_info)
    (names : gset string) (acc : option (gmap string dist))
    (have_trait : gset string) : option (gmap string dist) :=
  probabilities ← acc;
  match fails_evidence people names have_trait with
  | Some true => Some probabilities
  | Some false => gene_loop P people names have_trait probabilities
  | None => None
  end.

(** [main] from the loaded [people] to the normalized [probabilities]. *)
Definition main (P : probs) (people : gmap string person_info) :
    option (gmap string dist) :=
  let probabilities := initial_probabilities people in
  let names := dom people in
  probabilities ← foldl (trait_loop_body P people names)
                    (Some probabilities) (powerset names);
  normalize probabilities.

(** The outer enumeration of [main] with the evidence test left out: every
    triple the three nested loops visit. *)
Definition enumeration (names : gset string) :
    list (gset string * gset string * gset string) :=
  have_trait ← powerset names;
  one_gene ← powerset names;
  two_genes ← powerset (names ∖ one_gene);
  [(have_trait, one_gene, two_genes)].

(** The sum of [joint_probability] over that enumeration. *)
Definition enumeration_sum (P : probs) (people : gmap string person_info) :
    option Qc :=
  foldl (λ acc h,
    total ← acc;
    p ← joint_probability P people h.1.2 h.2 h.1.1;
    Some (total + p)%Qc) (Some 0%Qc) (enumeration (dom people)).

(** ** The inheritance model as closed formulas *)

(** The spec's [passProb(g) = g/2 * (1-mu) + (1-g/2) * mu]. *)
Definition passProb (mu : Qc) (g : nat) : Qc :=
  let h := (Q2Qc (Z.of_nat g # 1) / Q2Qc 2)%Qc in
  (h * (1 - mu) + (1 - h) * mu)%Qc.

(** The value [parent[g]] for [g] in [range(3)]. *)
Definition pass (g : nat) : Qc :=
  match g with
  | 0%nat => pct 1
  | 1%nat => pct 50
  | _ => pct 99
  end.

(** The value [table[mg, fg][g]]. *)
Definition child_prob (mg fg g : nat) : Qc :=
  match g with
  | 0%nat => (1 - pass mg) * (1 - pass fg)
  | 1%nat => pass mg * (1 - pass fg) + (1 - pass mg) * pass fg
  | _ => pass mg * pass fg
  end%Qc.

(** The value [PROBS["gene"][g]]. *)
Definition gene_prior (g : nat) : Qc :=
  match g with
  | 0%nat => pct 96
  | 1%nat => pct 3
  | _ => pct 1
  end.

(** The value [PROBS["trait"][g][t]]. *)
Definition trait_prob (g : nat) (t : bool) : Qc :=
  match g, t with
  | 0%nat, true => pct 1
  | 0%nat, false => pct 99
  | 1%nat, true => pct 56
  | 1%nat, false => pct 44
  | _, true => pct 65
  | _, false => pct 35
  end.

(** ** The contract of [joint_probability], in the spec's words *)

(** The hypothesized gene count of a name: 1 in [one_gene], 2 in
    [two_genes], 0 otherwise (also for an absent parent). *)
Definition gene_count (one_gene two_genes : gset string)
    (x : option string) : nat :=
  if opt_in x one_gene then 1%nat
  else if opt_in x two_genes then 2%nat
  else 0%nat.

(** One person's contribution: the gene-count factor times the trait
    factor, both read from the tables. *)
Definition person_factor_spec (P : probs)
    (table : gmap (nat * nat) (gmap nat Qc))
    (one_gene two_genes have_trait : gset string)
    (person : string) (value : person_info) : option Qc :=
  let g := gene_count one_gene two_genes (Some person) in
  let t := bool_decide (person ∈ have_trait) in
  gene_factor ←
    match person_mother value, person_father value with
    | None, None => PROBS_gene P !! g
    | _, _ =>
        let mg := gene_count one_gene two_genes (person_mother value) in
        let fg := gene_count one_gene two_genes (person_father value) in
        lookup2 table (mg, fg) g
    end;
  trait_factor ← lookup2 (PROBS_trait P) g t;
  Some (gene_factor * trait_factor)%Qc.

Definition product (l : list Qc) : Qc := foldr Qcmult 1%Qc l.

Definition joint_probability_spec (P : probs)
    (people : gmap string person_info)
    (one_gene two_genes have_trait : gset string) : option Qc :=
  table ← prob_table P;
  factors ← mapM (λ item : string * person_info,
               person_factor_spec P table one_gene two_genes have_trait
                 item.1 item.2) (map_to_list people);
  Some (product factors).

(** The same contribution with the table values written out. *)
Definition person_factor (one_gene two_genes have_trait : gset string)
    (person : string) (value : person_info) : Qc :=
  let g := gene_count one_gene two_genes (Some person) in
  let t := bool_decide (person ∈ have_trait) in
  (match person_mother value, person_father value with
   | None, None => gene_prior g
   | _, _ =>
       child_prob (gene_count one_gene two_genes (person_mother value))
                  (gene_count one_gene two_genes (person_father value)) g
   end * trait_prob g t)%Qc.

Definition joint_value (people : gmap string person_info)
    (one_gene two_genes have_trait : gset string) : Qc :=
  product (map (λ item : string * person_info,
             person_factor one_gene two_genes have_trait item.1 item.2)
           (map_to_list people)).

(** ** Pedigree shapes and sample pedigrees *)

(** Every name a record refers to as a mother or as a father. *)
Definition parents_of (people : gmap string person_info) : gset string :=
  list_to_set (omap person_mother (map_to_list people).*2)
  ∪ list_to_set (omap person_father (map_to_list people).*2).

(** The spec's pedigree invariants: a person has both parents or neither,
    and a parent that is named is a person of the pedigree. *)
Definition both_or_neither (people : gmap string person_info) : Prop :=
  map_Forall (λ _ value,
    match person_mother value, person_father value with
    | None, None => True
    | Some m, Some f => m ∈ dom people ∧ f ∈ dom people
    | _, _ => False
    end) people.

(** No person is their own ancestor: some rank grows from parent to child. *)
Definition ranked (rank : string → nat) (people : gmap string person_info) :
    Prop :=
  map_Forall (λ person value,
    ∀ p, person_mother value = Some p ∨ person_father value = Some p →
         (rank p < rank person)%nat) people.

(** Exactly one of mother and father is absent. *)
Definition half_orphan (value : person_info) : Prop :=
  (person_mother value = None ∧ person_father value ≠ None)
  ∨ (person_mother value ≠ None ∧ person_father value = None).

(** One person, no parents, no evidence. *)
Definition lone_person (name : string) : gmap string person_info :=
  {[ name := PersonInfo name None None None ]}.

(** One person recorded as their own mother and father. *)
Definition self_parent : gmap string person_info :=
  {[ "A"%string :=
       PersonInfo "A" (Some "A"%string) (Some "A"%string) None ]}.

(** A child with both parents in the pedigree. *)
Definition family : gmap string person_info :=
  {[ "Harry"%string :=
       PersonInfo "Harry" (Some "Lily"%string) (Some "James"%string) None;
     "James"%string := PersonInfo "James" None None (Some true);
     "Lily"%string := PersonInfo "Lily" None None (Some false) ]}.

(** A child whose father is not recorded. *)
Definition one_parent_family : gmap string person_info :=
  {[ "Harry"%string := PersonInfo "Harry" (Some "Lily"%string) None None;
     "Lily"%string := PersonInfo "Lily" None None (Some false) ]}.

Definition family_rank (name : string) : nat :=
  if decide (name = "Harry"%string) then 1%nat else 0%nat.

(** An accumulator with nonzero totals for one person. *)
Definition sample_totals : gmap string dist :=
  {[ "A"%string :=
       Dist {[ 2%nat := pct 1; 1%nat := pct 3; 0%nat := pct 4 ]}
            {[ true := pct 5; false := pct 3 ]} ]}.

(** ** The run of [main] on one person without parents, unrolled *)

(** What one pass of the innermost loop body does to the accumulator of a
    lone person, given the person's membership in [one_gene], [two_genes]
    and [have_trait]. *)
Definition lone_update (in_one in_two in_trait : bool) (d : dist) :
    option dist :=
  let g := if in_one then 1%nat else if in_two then 2%nat else 0%nat in
  let p := (gene_prior g * trait_prob g in_trait)%Qc in
  t ← add_at (dist_trait d) in_trait p;
  g' ← add_at (dist_gene d) g p;
  Some (Dist g' t).

(** The six passes [main] makes for a lone person without evidence, in the
    order of the loops, followed by the normalization. *)
Definition lone_run : option dist :=
  d ← lone_update false false false
         (Dist {[ 2%nat := 0%Qc; 1%nat := 0%Qc; 0%nat := 0%Qc ]}
               {[ true := 0%Qc; false := 0%Qc ]});
  d ← lone_update false true false d;
  d ← lone_update true false false d;
  d ← lone_update false false true d;
  d ← lone_update false true true d;
  d ← lone_update true false true d;
  normalize_person "" d.

(** ** Sums over the enumeration *)

Definition total (l : list Qc) : Qc := foldr Qcplus 0%Qc l.

(** The sum of [F] over the subsets [powerset] lists. *)
Definition sum_subsets (X : gset string) (F : gset string → Qc) : Qc :=
  total (map F (powerset X)).

(** The sum of [G one_gene two_genes have_trait] over the three nested
    loops of [main]. *)
Definition sum_hypotheses (X : gset string)
    (G : gset string → gset string → gset string → Qc) : Qc :=
  sum_subsets X (λ have_trait,
    sum_subsets X (λ one_gene,
      sum_subsets (X ∖ one_gene) (λ two_genes,
        G one_gene two_genes have_trait))).

(** ** What the loops of [main] add up *)

(** One pass of the innermost loop body of [main], for the hypothesis
    [h = (have_trait, one_gene, two_genes)]. *)
Definition visit (P : probs) (people : gmap string person_info)
    (acc : option (gmap string dist))
    (h : gset string * gset string * gset string) :
    option (gmap string dist) :=
  probabilities ← acc;
  p ← joint_probability P people h.1.2 h.2 h.1.1;
  update probabilities h.1.2 h.2 h.1.1 p.

(** The hypotheses that pass the evidence test of [main], in the order the
    loops reach them. *)
Definition kept (people : gmap string person_info) :
    list (gset string * gset string * gset string) :=
  filter (λ h, fails_evidence people (dom people) h.1.1 = Some false)
    (enumeration (dom people)).

(** The joint probability of all kept hypotheses, of those that give
    [person] the gene count [g], and of those that give the trait value
    [t]. *)
Definition mass (people : gmap string person_info) : Qc :=
  total (map (λ h, joint_value people h.1.2 h.2 h.1.1) (kept people)).

Definition gene_mass (people : gmap string person_info)
    (person : string) (g : nat) : Qc :=
  total (map (λ h, if decide (gene_count h.1.2 h.2 (Some person) = g)
                   then joint_value people h.1.2 h.2 h.1.1 else 0%Qc)
           (kept people)).

Definition trait_mass (people : gmap string person_info)
    (person : string) (t : bool) : Qc :=
  total (map (λ h, if decide (bool_decide (person ∈ h.1.1) = t)
                   then joint_value people h.1.2 h.2 h.1.1 else 0%Qc)
           (kept people)).

(** An accumulator with the five buckets of [main], and the dictionary
    that holds one for every person. *)
Definition buckets (Gp : nat → Qc) (Tp : bool → Qc) : dist :=
  Dist {[ 2%nat := Gp 2%nat; 1%nat := Gp 1%nat; 0%nat := Gp 0%nat ]}
       {[ true := Tp true; false := Tp false ]}.

Definition accumulator (people : gmap string person_info)
    (Gf : string → nat → Qc) (Tf : string → bool → Qc) : gmap string dist :=
  map_imap (λ person _, Some (buckets (Gf person) (Tf person))) people.

(** ** [load_data] *)

(** One row as [csv.DictReader] yields it for a file with the columns
    name, mother, father and trait.  Opening the file and splitting it
    into rows is the csv library's work and is not modelled; a field the
    reader leaves out of a short row behaves in [load_data] as the empty
    string does. *)
Record row := Row {
  row_name : string;
  row_mother : string;
  row_father : string;
  row_trait : string
}.

(** [s or None]: the empty string counts as false. *)
Definition or_None (s : string) : option string :=
  if decide (s = ""%string) then None else Some s.

(** [True if s == "1" else False if s == "0" else None]. *)
Definition trait_of_string (s : string) : option bool :=
  if decide (s = "1"%string) then Some true
  else if decide (s = "0"%string) then Some false
  else None.

(** The dictionary stored at [data[name]] for one row. *)
Definition row_record (r : row) : person_info :=
  PersonInfo (row_name r) (or_None (row_mother r)) (or_None (row_father r))
    (trait_of_string (row_trait r)).

(** [load_data], from the rows of the file. *)
Definition load_data (rows : list row) : gmap string person_info :=
  foldl (λ data r, <[row_name r := row_record r]> data) ∅ rows.

(** The family of three with no trait recorded. *)
Definition family_without_evidence : gmap string person_info :=
  {[ "Harry"%string :=
       PersonInfo "Harry" (Some "Lily"%string) (Some "James"%string) None;
     "James"%string := PersonInfo "James" None None None;
     "Lily"%string := PersonInfo "Lily" None None None ]}.

(** Rows in which Harry is listed twice, first with a mother only. *)
Definition sample_rows : list row :=
  [ Row "Harry" "Lily" "" "";
    Row "Lily" "" "" "0";
    Row "Harry" "Lily" "James" "1";
    Row "James" "" "" "maybe" ].

(** * Properties *)

(** ** Computing with exact rationals *)

Lemma Some_Qc_eq (o : option Qc) (q q' : Qc) :
  o = Some q' → q' = q → o = Some q.
Proof. by intros -> ->. Qed.

(** Two closed rationals are equal when their cross products agree. *)
Ltac qc_closed := apply Qc_is_canon; vm_compute; reflexivity.

(** A closed lookup, evaluated and compared as a rational. *)
Ltac qc_lookup :=
  lazymatch goal with
  | |- ?o = Some ?q =>
      let v := eval vm_compute in o in
      lazymatch v with
      | Some ?q' =>
          apply (Some_Qc_eq o q q');
          [vm_compute; reflexivity | qc_closed]
      end
  end.

Lemma parent_lookup g : (g < 3)%nat → parent !! g = Some (pass g).
Proof.
  intros Hg. destruct g as [|[|[|g]]]; [by vm_compute..|lia].
Qed.

Lemma prob_table_entry_lookup mg fg g :
  (mg < 3)%nat → (fg < 3)%nat → (g < 3)%nat →
  prob_table_entry mg fg ≫= (.!! g) = Some (child_prob mg fg g).
Proof.
  intros Hm Hf Hg. unfold prob_table_entry.
  rewrite !parent_lookup by done. simpl.
  destruct g as [|[|[|g]]]; [done..|lia].
Qed.

Lemma prob_table_lookup P mg fg :
  (mg < 3)%nat → (fg < 3)%nat →
  prob_table P ≫= (.!! (mg, fg)) = prob_table_entry mg fg.
Proof.
  intros Hm Hf.
  destruct mg as [|[|[|mg]]]; [| | |lia];
    (destruct fg as [|[|[|fg]]]; [by vm_compute..|lia]).
Qed.

(** ** [joint_probability] against its contract *)

Lemma joint_probability_person_spec P table og tg ht person value :
  (joint_probability_person P table og tg ht person value
     ≫= λ '(pg, pt), Some (pt * pg)%Qc)
  = person_factor_spec P table og tg ht person value.
Proof.
  unfold joint_probability_person, person_factor_spec, gene_count.
  cbn [opt_in].
  destruct (person_mother value), (person_father value); cbn [opt_in];
    repeat (case_bool_decide; cbn [opt_in]);
    repeat match goal with
           | |- context [lookup2 ?d ?i ?j] => destruct (lookup2 d i j); simpl
           | |- context [PROBS_gene P !! ?k] =>
               destruct (PROBS_gene P !! k); simpl
           end;
    try reflexivity; f_equal; ring.
Qed.

Lemma joint_probability_step_None P table og tg ht l :
  foldl (joint_probability_step P table og tg ht) None l = None.
Proof. induction l; [done|by simpl]. Qed.

Lemma joint_probability_loop P table og tg ht l a :
  foldl (joint_probability_step P table og tg ht) (Some a) l
  = factors ← mapM (λ item : string * person_info,
                 person_factor_spec P table og tg ht item.1 item.2) l;
    Some (a * product factors)%Qc.
Proof.
  revert a. induction l as [|[person value] l IH]; intros a; simpl.
  - f_equal. unfold product. simpl. ring.
  - rewrite <-joint_probability_person_spec.
    destruct (joint_probability_person _ _ _ _ _ _ _) as [[pg pt]|]; simpl.
    + rewrite IH. destruct (mapM _ l); simpl; [|done].
      f_equal. ring.
    + apply joint_probability_step_None.
Qed.

Lemma joint_probability_refines P people og tg ht :
  joint_probability P people og tg ht
  = joint_probability_spec P people og tg ht.
Proof.
  unfold joint_probability, joint_probability_spec.
  destruct (prob_table P) as [table|]; simpl; [|done].
  rewrite joint_probability_loop.
  destruct (mapM _ _); simpl; [|done]. f_equal. ring.
Qed.

Lemma prob_table_Some P : ∃ table, prob_table P = Some table.
Proof. vm_compute. eauto. Qed.

Lemma gene_count_lt og tg x : (gene_count og tg x < 3)%nat.
Proof. unfold gene_count. repeat case_match; lia. Qed.

Lemma PROBS_gene_lookup g :
  (g < 3)%nat → PROBS_gene PROBS !! g = Some (gene_prior g).
Proof. intros Hg. destruct g as [|[|[|g]]]; [by vm_compute..|lia]. Qed.

Lemma PROBS_trait_lookup g t :
  (g < 3)%nat → lookup2 (PROBS_trait PROBS) g t = Some (trait_prob g t).
Proof.
  intros Hg. destruct g as [|[|[|g]]]; [destruct t; by vm_compute..|lia].
Qed.

Lemma table_lookup table mg fg g :
  prob_table PROBS = Some table →
  (mg < 3)%nat → (fg < 3)%nat → (g < 3)%nat →
  lookup2 table (mg, fg) g = Some (child_prob mg fg g).
Proof.
  intros Ht Hm Hf Hg. unfold lookup2.
  pose proof (prob_table_lookup PROBS mg fg Hm Hf) as Hl.
  rewrite Ht in Hl. simpl in Hl. rewrite Hl.
  by apply prob_table_entry_lookup.
Qed.

Lemma person_factor_spec_value table og tg ht person value :
  prob_table PROBS = Some table →
  person_factor_spec PROBS table og tg ht person value
  = Some (person_factor og tg ht person value).
Proof.
  intros Ht. unfold person_factor_spec, person_factor.
  rewrite PROBS_trait_lookup by apply gene_count_lt.
  destruct (person_mother value) as [m|] eqn:Hm,
           (person_father value) as [f|] eqn:Hf;
    rewrite ?(table_lookup _ _ _ _ Ht), ?PROBS_gene_lookup
      by apply gene_count_lt; done.
Qed.

Lemma mapM_total {A B} (f : A → option B) (g : A → B) (l : list A) :
  (∀ x, f x = Some (g x)) → mapM f l = Some (map g l).
Proof.
  intros Hf. induction l as [|x l IH]; [done|].
  simpl. rewrite Hf, IH. done.
Qed.

Lemma joint_probability_value people og tg ht :
  joint_probability PROBS people og tg ht
  = Some (joint_value people og tg ht).
Proof.
  rewrite joint_probability_refines. unfold joint_probability_spec.
  destruct (prob_table_Some PROBS) as [table Ht]. rewrite Ht. simpl.
  rewrite (mapM_total _ (λ item : string * person_info,
             person_factor og tg ht item.1 item.2)); [done|].
  intros [person value]. by apply person_factor_spec_value.
Qed.

(** C1. For every pedigree and every hypothesis, [joint_probability]
    returns the product, over every person of the pedigree, of the person's
    gene-count factor times the trait factor: [PROBS["gene"][g]] times
    [PROBS["trait"][g][t]] when mother and father are both absent,
    [table[mg, fg][g]] times [PROBS["trait"][g][t]] otherwise, with the
    gene counts read off [one_gene] and [two_genes].  The code's loop and
    the contract agree, and on the module's constants a value is returned.
    Disjointness of the two gene sets is not needed. *)
Theorem joint_probability_is_product people og tg ht :
  joint_probability PROBS people og tg ht
    = joint_probability_spec PROBS people og tg ht
  ∧ ∃ table factors,
      prob_table PROBS = Some table
      ∧ Forall2 (λ (item : string * person_info) f,
           person_factor_spec PROBS table og tg ht item.1 item.2 = Some f)
          (map_to_list people) factors
      ∧ joint_probability PROBS people og tg ht = Some (product factors).
Proof.
  split; [apply joint_probability_refines|].
  destruct (prob_table_Some PROBS) as [table Ht].
  exists table,
    (map (λ item : string * person_info,
        person_factor og tg ht item.1 item.2) (map_to_list people)).
  split; [done|]. split; [|apply joint_probability_value].
  apply Forall2_fmap_r, Forall_Forall2_diag, Forall_forall.
  intros [person value] _. by apply person_factor_spec_value.
Qed.

(** C4. For every pair [(mg, fg)] of gene counts in [range(3)], the three
    probabilities [prob_table] stores at that pair, for child gene counts
    0, 1 and 2, sum to 1. *)
Theorem prob_table_rows_sum_to_one mg fg :
  (mg < 3)%nat → (fg < 3)%nat →
  ∃ table entry a b c,
    prob_table PROBS = Some table
    ∧ table !! (mg, fg) = Some entry
    ∧ entry !! 0%nat = Some a ∧ entry !! 1%nat = Some b
    ∧ entry !! 2%nat = Some c
    ∧ (a + b + c = 1)%Qc.
Proof.
  intros Hm Hf. destruct (prob_table_Some PROBS) as [table Ht].
  pose proof (prob_table_lookup PROBS mg fg Hm Hf) as Hl.
  rewrite Ht in Hl. simpl in Hl. unfold prob_table_entry in Hl.
  rewrite !parent_lookup in Hl by done. simpl in Hl.
  eexists table, _, _, _, _. split; [done|]. split; [exact Hl|].
  repeat split; [done..|]. ring.
Qed.

Lemma prob_table_rows_sum_to_one_witness :
  ∃ table entry a b c,
    prob_table PROBS = Some table
    ∧ table !! (1%nat, 2%nat) = Some entry
    ∧ entry !! 0%nat = Some a ∧ entry !! 1%nat = Some b
    ∧ entry !! 2%nat = Some c
    ∧ (a + b + c = 1)%Qc.
Proof. apply (prob_table_rows_sum_to_one 1 2); lia. Defined.

Lemma passProb_pass g :
  (g < 3)%nat → passProb (PROBS_mutation PROBS) g = pass g.
Proof. intros Hg. destruct g as [|[|[|g]]]; [qc_closed..|lia]. Qed.

(** C6. For every parent gene count [g] in 0, 1, 2, the transmission
    probability [parent[g]] that [prob_table] builds the table from is the
    value of [g/2 * (1-mu) + (1-g/2) * mu] at the mutation rate stored in
    [PROBS], which is 0.01; the three values are 0.01, 0.50 and 0.99, and
    the entries of the child table are the products the spec forms from
    them. *)
Theorem parent_is_passProb g :
  (g < 3)%nat →
  let mu := PROBS_mutation PROBS in
  mu = pct 1
  ∧ parent !! g = Some (passProb mu g)
  ∧ parent !! 0%nat = Some (pct 1)
  ∧ parent !! 1%nat = Some (pct 50)
  ∧ parent !! 2%nat = Some (pct 99)
  ∧ ∃ table,
      prob_table PROBS = Some table
      ∧ ∀ fg, (fg < 3)%nat →
          lookup2 table (g, fg) 0%nat
            = Some ((1 - passProb mu g) * (1 - passProb mu fg))%Qc
          ∧ lookup2 table (g, fg) 1%nat
            = Some (passProb mu g * (1 - passProb mu fg)
                    + (1 - passProb mu g) * passProb mu fg)%Qc
          ∧ lookup2 table (g, fg) 2%nat
            = Some (passProb mu g * passProb mu fg)%Qc.
Proof.
  intros Hg mu. split; [done|]. split.
  { unfold mu. rewrite passProb_pass by done. by apply parent_lookup. }
  do 3 (split; [by vm_compute|]).
  destruct (prob_table_Some PROBS) as [table Ht]. exists table.
  split; [done|]. intros fg Hf. unfold mu.
  rewrite !passProb_pass by done.
  repeat split; by rewrite (table_lookup _ _ _ _ Ht) by (done || lia).
Qed.

Lemma parent_is_passProb_witness :
  let mu := PROBS_mutation PROBS in
  mu = pct 1
  ∧ parent !! 1%nat = Some (passProb mu 1)
  ∧ parent !! 0%nat = Some (pct 1)
  ∧ parent !! 1%nat = Some (pct 50)
  ∧ parent !! 2%nat = Some (pct 99)
  ∧ ∃ table,
      prob_table PROBS = Some table
      ∧ ∀ fg, (fg < 3)%nat →
          lookup2 table (1%nat, fg) 0%nat
            = Some ((1 - passProb mu 1) * (1 - passProb mu fg))%Qc
          ∧ lookup2 table (1%nat, fg) 1%nat
            = Some (passProb mu 1 * (1 - passProb mu fg)
                    + (1 - passProb mu 1) * passProb mu fg)%Qc
          ∧ lookup2 table (1%nat, fg) 2%nat
            = Some (passProb mu 1 * passProb mu fg)%Qc.
Proof. refine (parent_is_passProb 1 _). lia. Defined.

(** C10. Two runs that differ only in the value stored under
    [PROBS["mutation"]] give the same [prob_table] and the same
    [joint_probability] on every input: the constant is never read. *)
Theorem mutation_constant_is_not_read P P' people og tg ht :
  PROBS_gene P = PROBS_gene P' →
  PROBS_trait P = PROBS_trait P' →
  prob_table P = prob_table P'
  ∧ joint_probability P people og tg ht
    = joint_probability P' people og tg ht.
Proof.
  destruct P as [g t mu], P' as [g' t' mu']. simpl.
  intros -> ->. split; reflexivity.
Qed.

Lemma mutation_constant_is_not_read_witness :
  prob_table PROBS = prob_table (with_mutation 0%Qc PROBS)
  ∧ joint_probability PROBS family {["Harry"%string]} {["James"%string]}
      {["James"%string]}
    = joint_probability (with_mutation 0%Qc PROBS) family
        {["Harry"%string]} {["James"%string]} {["James"%string]}.
Proof.
  apply (mutation_constant_is_not_read PROBS (with_mutation 0%Qc PROBS));
    reflexivity.
Defined.

(** ** Taking one person out of the product *)

Lemma product_Permutation l1 l2 : l1 ≡ₚ l2 → product l1 = product l2.
Proof.
  unfold product.
  induction 1 as [|x l1 l2 _ IH|x y l|l1 l2 l3 _ IH1 _ IH2];
    simpl; [done|by rewrite IH|ring|congruence].
Qed.

Lemma joint_value_empty og tg ht : joint_value ∅ og tg ht = 1%Qc.
Proof. unfold joint_value. by rewrite map_to_list_empty. Qed.

Lemma joint_value_insert people x v og tg ht :
  people !! x = None →
  joint_value (<[x := v]> people) og tg ht
  = (person_factor og tg ht x v * joint_value people og tg ht)%Qc.
Proof.
  intros Hx. unfold joint_value.
  by rewrite (product_Permutation _ _
                (Permutation_map _ (map_to_list_insert people x v Hx))).
Qed.

(** ** Persons with one recorded parent *)

Lemma joint_probability_person_child P table og tg ht person value :
  ¬ (person_mother value = None ∧ person_father value = None) →
  joint_probability_person P table og tg ht person value
  = (let g := gene_count og tg (Some person) in
     let mg := gene_count og tg (person_mother value) in
     let fg := gene_count og tg (person_father value) in
     pt ← lookup2 (PROBS_trait P) g (bool_decide (person ∈ ht));
     pg ← lookup2 table (mg, fg) g; Some (pg, pt)).
Proof.
  intros Hp. unfold joint_probability_person, gene_count. cbn [opt_in].
  destruct (person_mother value), (person_father value);
    [| | |by destruct Hp];
    repeat case_bool_decide; reflexivity.
Qed.

(** C9. A person with exactly one of mother and father absent raises no
    error in [joint_probability]: the record goes through the branch for
    known parents, the absent parent counts as gene count 0, and the gene
    factor is the child table's entry at that pair of counts.  The value
    [joint_probability] returns is the value for the other people times
    this person's trait factor times that table entry. *)
Theorem half_orphan_takes_child_branch people og tg ht person value :
  people !! person = Some value →
  half_orphan value →
  let count x :=
    match x with Some n => gene_count og tg (Some n) | None => 0%nat end in
  let g := gene_count og tg (Some person) in
  ∃ table pg pt others,
    prob_table PROBS = Some table
    ∧ lookup2 table (count (person_mother value),
                     count (person_father value)) g = Some pg
    ∧ lookup2 (PROBS_trait PROBS) g (bool_decide (person ∈ ht)) = Some pt
    ∧ joint_probability_person PROBS table og tg ht person value
      = Some (pg, pt)
    ∧ joint_probability PROBS (delete person people) og tg ht = Some others
    ∧ joint_probability PROBS people og tg ht
      = Some (others * (pt * pg))%Qc.
Proof.
  intros Hv Hh count g. destruct (prob_table_Some PROBS) as [table Ht].
  assert (Hc : ∀ x, count x = gene_count og tg x) by by intros [n|].
  exists table, (child_prob (count (person_mother value))
                   (count (person_father value)) g),
    (trait_prob g (bool_decide (person ∈ ht))),
    (joint_value (delete person people) og tg ht).
  split; [done|].
  assert (Hl : lookup2 table (count (person_mother value),
                 count (person_father value)) g
               = Some (child_prob (count (person_mother value))
                         (count (person_father value)) g)).
  { apply table_lookup; [done|rewrite Hc..|]; apply gene_count_lt. }
  assert (Hl' : lookup2 (PROBS_trait PROBS) g (bool_decide (person ∈ ht))
                = Some (trait_prob g (bool_decide (person ∈ ht)))).
  { apply PROBS_trait_lookup, gene_count_lt. }
  split; [done|]. split; [done|]. split.
  { rewrite joint_probability_person_child
      by (destruct Hh as [[? ?]|[? ?]]; intros [? ?]; congruence).
    cbv zeta. fold g. rewrite <-!Hc, Hl', Hl. done. }
  split; [apply joint_probability_value|].
  rewrite joint_probability_value. f_equal.
  rewrite <-(insert_delete_id people person value Hv) at 1.
  rewrite joint_value_insert by apply lookup_delete_eq.
  unfold person_factor. fold g. rewrite !Hc.
  destruct Hh as [[Hm Hf]|[Hm Hf]];
    destruct (person_mother value), (person_father value);
    try done; ring.
Qed.

Lemma half_orphan_takes_child_branch_witness :
  let og : gset string := {["Harry"%string]} in
  let tg : gset string := {["Lily"%string]} in
  let value := PersonInfo "Harry" (Some "Lily"%string) None None in
  let count x :=
    match x with Some n => gene_count og tg (Some n) | None => 0%nat end in
  let g := gene_count og tg (Some "Harry"%string) in
  ∃ table pg pt others,
    prob_table PROBS = Some table
    ∧ lookup2 table (count (person_mother value),
                     count (person_father value)) g = Some pg
    ∧ lookup2 (PROBS_trait PROBS) g
        (bool_decide ("Harry"%string ∈ (∅ : gset string))) = Some pt
    ∧ joint_probability_person PROBS table og tg ∅ "Harry" value
      = Some (pg, pt)
    ∧ joint_probability PROBS (delete "Harry"%string one_parent_family)
        og tg ∅ = Some others
    ∧ joint_probability PROBS one_parent_family og tg ∅
      = Some (others * (pt * pg))%Qc.
Proof.
  intros og tg value count g.
  refine (half_orphan_takes_child_branch one_parent_family og tg ∅
            "Harry" value _ _).
  - vm_compute. reflexivity.
  - right. simpl. split; [discriminate|reflexivity].
Defined.

(** ** Which names a hypothesis is read at *)

Lemma gene_count_ext og tg og' tg' x :
  (∀ n, x = Some n → (n ∈ og ↔ n ∈ og') ∧ (n ∈ tg ↔ n ∈ tg')) →
  gene_count og tg x = gene_count og' tg' x.
Proof.
  intros Hx. unfold gene_count. destruct x as [n|]; [|done]. simpl.
  destruct (Hx n eq_refl) as [Ho Ht].
  by rewrite (bool_decide_ext _ _ Ho), (bool_decide_ext _ _ Ht).
Qed.

Lemma person_factor_ext og tg ht og' tg' ht' person value :
  (person ∈ ht ↔ person ∈ ht') →
  (∀ x, x = person ∨ person_mother value = Some x
        ∨ person_father value = Some x →
        (x ∈ og ↔ x ∈ og') ∧ (x ∈ tg ↔ x ∈ tg')) →
  person_factor og tg ht person value
  = person_factor og' tg' ht' person value.
Proof.
  intros Ht Hx. unfold person_factor.
  rewrite (bool_decide_ext _ _ Ht).
  rewrite (gene_count_ext og tg og' tg' (Some person))
    by (intros n [= <-]; apply Hx; auto).
  rewrite (gene_count_ext og tg og' tg' (person_mother value))
    by (intros n Hn; apply Hx; auto).
  rewrite (gene_count_ext og tg og' tg' (person_father value))
    by (intros n Hn; apply Hx; auto).
  done.
Qed.

Lemma joint_value_ext people og tg ht og' tg' ht' :
  (∀ person value, people !! person = Some value →
     (person ∈ ht ↔ person ∈ ht')
     ∧ ∀ x, x = person ∨ person_mother value = Some x
            ∨ person_father value = Some x →
            (x ∈ og ↔ x ∈ og') ∧ (x ∈ tg ↔ x ∈ tg')) →
  joint_value people og tg ht = joint_value people og' tg' ht'.
Proof.
  intros Hp. unfold joint_value. f_equal.
  apply list_eq_Forall2, Forall2_fmap, Forall_Forall2_diag, Forall_forall.
  intros [person value] Hin%elem_of_map_to_list. simpl.
  destruct (Hp person value Hin). by apply person_factor_ext.
Qed.

Lemma elem_of_parents_of people person value x :
  people !! person = Some value →
  person_mother value = Some x ∨ person_father value = Some x →
  x ∈ parents_of people.
Proof.
  intros Hp Hx. unfold parents_of.
  assert (Hv : value ∈ (map_to_list people).*2).
  { apply list_elem_of_fmap. exists (person, value).
    split; [done|]. by apply elem_of_map_to_list. }
  apply elem_of_union. destruct Hx as [Hx|Hx]; [left|right];
    apply elem_of_list_to_set, list_elem_of_omap; eauto.
Qed.

(** C8, as the code has it.  [joint_probability] has no check of the
    hypothesis against the pedigree and raises no error: for every
    hypothesis, also one naming people outside the pedigree, it returns a
    probability, the one it returns for the hypothesis restricted to the
    names the pedigree knows (its people and the parents they name). *)
Theorem joint_probability_ignores_unknown_names people og tg ht :
  let known := dom people ∪ parents_of people in
  ∃ q, joint_probability PROBS people og tg ht = Some q
       ∧ joint_probability PROBS people
           (og ∩ known) (tg ∩ known) (ht ∩ known) = Some q.
Proof.
  intros known. exists (joint_value people og tg ht).
  rewrite !joint_probability_value. split; [done|]. f_equal.
  apply joint_value_ext. intros person value Hp.
  assert (Hk : person ∈ known).
  { apply elem_of_union_l, elem_of_dom. eauto. }
  split; [set_solver|]. intros x [->|Hx]; [set_solver|].
  assert (x ∈ known).
  { apply elem_of_union_r. by eapply elem_of_parents_of. }
  set_solver.
Qed.

(** C8, as stated, fails: a hypothesis that names ["Ghost"], who is not in
    the pedigree, gets a probability and no error. *)
Lemma joint_probability_accepts_unknown_name :
  ¬ ({["Ghost"%string]} ⊆ dom (lone_person "A"))
  ∧ joint_probability PROBS (lone_person "A")
      {["Ghost"%string]} ∅ {["Ghost"%string]} = Some (Q2Qc (594 # 625)).
Proof.
  split.
  - unfold lone_person. rewrite dom_singleton_L.
    intros H. apply singleton_subseteq in H. discriminate.
  - qc_lookup.
Qed.

(** ** The evidence test of [main] *)

Lemma py_any_spec {A} (f : A → option bool) (l : list A) :
  Forall (λ x, is_Some (f x)) l →
  ∃ b, py_any f l = Some b
       ∧ (b = true ↔ Exists (λ x, f x = Some true) l).
Proof.
  induction 1 as [|x l [b Hb] _ IH]; simpl.
  - exists false. split; [done|]. split; [done|]. by intros ?%Exists_nil.
  - rewrite Hb. destruct b.
    + exists true. split; [done|]. split; [|done]. intros _. by left.
    + destruct IH as (b & -> & Hiff). exists b. split; [done|].
      rewrite Hiff. split; [by right|].
      intros [?|?]%Exists_cons; [congruence|done].
Qed.

Lemma violates_true people have_trait person :
  violates people have_trait person = Some true
  ↔ ∃ value t, people !! person = Some value
               ∧ person_trait value = Some t
               ∧ t ≠ bool_decide (person ∈ have_trait).
Proof.
  unfold violates. split.
  - destruct (people !! person) as [value|]; simpl; [|done].
    destruct (person_trait value) as [t|] eqn:Ht; [|done].
    intros [= Hne]. exists value, t. split; [done|]. split; [done|].
    intros ->. by destruct (bool_decide (person ∈ have_trait)).
  - intros (value & t & Hp & Ht & Hne). rewrite Hp. simpl. rewrite Ht.
    f_equal.
    by destruct t, (bool_decide (person ∈ have_trait)).
Qed.

(** C5. For every population and every candidate [have_trait], the
    evidence test of [main] returns an answer, and it rejects the candidate
    exactly when some person has known trait evidence that differs from
    the person's membership in [have_trait]; a rejected candidate leaves
    the accumulator as it is, any other goes on to the gene loops. *)
Theorem fails_evidence_iff_disagreement people have_trait :
  ∃ fails,
    fails_evidence people (dom people) have_trait = Some fails
    ∧ (fails = true
       ↔ ∃ person value t,
           people !! person = Some value
           ∧ person_trait value = Some t
           ∧ t ≠ bool_decide (person ∈ have_trait))
    ∧ ∀ P probabilities,
        trait_loop_body P people (dom people) (Some probabilities)
          have_trait
        = if fails then Some probabilities
          else gene_loop P people (dom people) have_trait probabilities.
Proof.
  unfold trait_loop_body, fails_evidence.
  destruct (py_any_spec (violates people have_trait)
              (elements (dom people))) as (b & Hb & Hiff).
  { apply Forall_forall. intros person Hin%elem_of_elements%elem_of_dom.
    destruct Hin as [value Hv]. unfold violates. rewrite Hv. by eexists. }
  exists b. split; [done|]. split.
  - rewrite Hiff, Exists_exists. split.
    + intros (person & _ & Hv%violates_true). by exists person.
    + intros (person & value & t & Hp & Hv). exists person. split.
      * apply elem_of_elements, elem_of_dom. eauto.
      * apply violates_true. eauto.
  - intros P probabilities. simpl. rewrite Hb. by destruct b.
Qed.

(** ** Loops over the keys of a dictionary changed in place *)

Section for_each_key.
Context {V : Type} (f : string → V → option V) (g : string → V → V).

Lemma for_each_key_loop (l : list string) (cur : gmap string V) :
  NoDup l →
  (∀ k, k ∈ l → ∃ v, cur !! k = Some v ∧ f k v = Some (g k v)) →
  ∃ cur', foldl (for_each_key_step f) (Some cur) l = Some cur'
    ∧ ∀ k, cur' !! k
           = if decide (k ∈ l) then g k <$> cur !! k else cur !! k.
Proof.
  intros Hnd. revert cur.
  induction Hnd as [|key l Hnotin Hnd IH]; intros cur Hl.
  - exists cur. split; [done|]. intros k. by rewrite decide_False by
      apply not_elem_of_nil.
  - destruct (Hl key) as (v & Hv & Hf); [left|].
    simpl. rewrite Hv. simpl. rewrite Hf. simpl.
    destruct (IH (<[key := g key v]> cur)) as (cur' & Hfold & Hcur').
    { intros k Hk. rewrite lookup_insert_ne by (intros ->; done).
      apply Hl. by right. }
    exists cur'. split; [done|]. intros k. rewrite Hcur'.
    destruct (decide (k = key)) as [->|Hne].
    + rewrite decide_False by done. rewrite decide_True by left.
      by rewrite lookup_insert_eq, Hv.
    + rewrite lookup_insert_ne by done.
      destruct (decide (k ∈ l)).
      * by rewrite decide_True by by right.
      * rewrite decide_False; [done|]. by intros [?|?]%elem_of_cons.
Qed.

Lemma for_each_key_total (d : gmap string V) :
  (∀ k v, d !! k = Some v → f k v = Some (g k v)) →
  ∃ d', for_each_key f d = Some d' ∧ ∀ k, d' !! k = g k <$> d !! k.
Proof.
  intros Hf.
  destruct (for_each_key_loop (elements (dom d)) d) as (d' & Hd & Hl).
  { apply NoDup_elements. }
  { intros k [v Hv]%elem_of_elements%elem_of_dom. eauto. }
  exists d'. split; [exact Hd|]. intros k. rewrite Hl.
  destruct (decide (k ∈ elements (dom d))) as [|Hk]; [done|].
  rewrite elem_of_elements, not_elem_of_dom in Hk. by rewrite Hk.
Qed.
End for_each_key.

(** ** [normalize] *)

Lemma py_sum_from a l : foldl Qcplus a l = (a + py_sum l)%Qc.
Proof.
  unfold py_sum. revert a. induction l as [|x l IH]; intros a; simpl.
  - ring.
  - rewrite (IH (a + x)%Qc), (IH (0 + x)%Qc). ring.
Qed.

Lemma py_sum_cons x l : py_sum (x :: l) = (x + py_sum l)%Qc.
Proof. unfold py_sum at 1. simpl. rewrite py_sum_from. ring. Qed.

Lemma py_sum_scaled c l :
  py_sum ((λ v, (v * c)%Qc) <$> l) = (py_sum l * c)%Qc.
Proof.
  induction l as [|x l IH]; [unfold py_sum; simpl; ring|].
  rewrite fmap_cons, !py_sum_cons, IH. ring.
Qed.

Lemma dict_values_scaled {K} `{Countable K} c (d : gmap K Qc) :
  dict_values (scale_values c d) = (λ v, (v * c)%Qc) <$> dict_values d.
Proof.
  unfold dict_values, scale_values. rewrite map_to_list_fmap.
  rewrite <-!list_fmap_compose. by apply list_fmap_ext; intros ? [??].
Qed.

Lemma py_div_nonzero a b : b ≠ 0%Qc → py_div a b = Some (a / b)%Qc.
Proof. intros Hb. unfold py_div. by rewrite decide_False. Qed.

Lemma scale_values_sum {K} `{Countable K} (d : gmap K Qc) :
  py_sum (dict_values d) ≠ 0%Qc →
  py_sum (dict_values
            (scale_values (1 / py_sum (dict_values d))%Qc d)) = 1%Qc.
Proof.
  intros Hs. rewrite dict_values_scaled, py_sum_scaled. by field.
Qed.

Lemma scale_values_lookup {K} `{Countable K} (d : gmap K Qc) s k :
  scale_values (1 / s)%Qc d !! k = (λ v, (v / s)%Qc) <$> d !! k.
Proof.
  unfold scale_values. rewrite lookup_fmap.
  destruct (d !! k) as [v|]; [|done]. simpl. f_equal.
  unfold Qcdiv. ring.
Qed.

(** C3. When, for every person, the gene buckets have a nonzero sum and
    the trait buckets have a nonzero sum, [normalize] succeeds; it keeps
    the persons, and for each of them the gene distribution and the trait
    distribution afterwards sum to 1 and every value is its value before
    divided by the sum of its distribution before. *)
Theorem normalize_rescales probabilities :
  (∀ person d, probabilities !! person = Some d →
     py_sum (dict_values (dist_gene d)) ≠ 0%Qc
     ∧ py_sum (dict_values (dist_trait d)) ≠ 0%Qc) →
  ∃ normalized,
    normalize probabilities = Some normalized
    ∧ dom normalized = dom probabilities
    ∧ ∀ person d, probabilities !! person = Some d →
        ∃ d', normalized !! person = Some d'
          ∧ py_sum (dict_values (dist_gene d')) = 1%Qc
          ∧ py_sum (dict_values (dist_trait d')) = 1%Qc
          ∧ (∀ k, dist_gene d' !! k
                  = (λ v, v / py_sum (dict_values (dist_gene d)))%Qc
                      <$> dist_gene d !! k)
          ∧ (∀ k, dist_trait d' !! k
                  = (λ v, v / py_sum (dict_values (dist_trait d)))%Qc
                      <$> dist_trait d !! k).
Proof.
  intros Hsum.
  set (g := λ (_ : string) d,
         Dist (scale_values (1 / py_sum (dict_values (dist_gene d)))%Qc
                 (dist_gene d))
              (scale_values (1 / py_sum (dict_values (dist_trait d)))%Qc
                 (dist_trait d))).
  destruct (for_each_key_total normalize_person g probabilities)
    as (normalized & Hn & Hl).
  { intros person d Hd. destruct (Hsum person d Hd) as [Hg Ht].
    unfold normalize_person. by rewrite !py_div_nonzero. }
  exists normalized. split; [exact Hn|]. split.
  - apply set_eq. intros person. rewrite !elem_of_dom, Hl.
    by rewrite fmap_is_Some.
  - intros person d Hd. destruct (Hsum person d Hd) as [Hg Ht].
    exists (g person d). rewrite Hl, Hd. split; [done|]. simpl.
    split; [by apply scale_values_sum|].
    split; [by apply scale_values_sum|].
    split; intros k; apply scale_values_lookup.
Qed.

Lemma normalize_rescales_witness :
  ∃ normalized,
    normalize sample_totals = Some normalized
    ∧ dom normalized = dom sample_totals
    ∧ ∀ person d, sample_totals !! person = Some d →
        ∃ d', normalized !! person = Some d'
          ∧ py_sum (dict_values (dist_gene d')) = 1%Qc
          ∧ py_sum (dict_values (dist_trait d')) = 1%Qc
          ∧ (∀ k, dist_gene d' !! k
                  = (λ v, v / py_sum (dict_values (dist_gene d)))%Qc
                      <$> dist_gene d !! k)
          ∧ (∀ k, dist_trait d' !! k
                  = (λ v, v / py_sum (dict_values (dist_trait d)))%Qc
                      <$> dist_trait d !! k).
Proof.
  apply (normalize_rescales sample_totals).
  intros person d Hd. unfold sample_totals in Hd.
  apply lookup_singleton_Some in Hd as [_ <-]. simpl.
  split; intros Heq; apply (f_equal this) in Heq;
    vm_compute in Heq; discriminate.
Defined.

(** ** [main] on a single person *)

Lemma powerset_empty : powerset ∅ = [∅].
Proof. unfold powerset. by rewrite elements_empty. Qed.

Lemma powerset_singleton n : powerset {[n]} = [∅; {[n]}].
Proof.
  unfold powerset. rewrite elements_singleton. simpl.
  by rewrite union_empty_r_L.
Qed.

Lemma for_each_key_singleton {V} (f : string → V → option V) n d :
  for_each_key f {[n := d]} = d' ← f n d; Some {[n := d']}.
Proof.
  unfold for_each_key. rewrite dom_singleton_L, elements_singleton. simpl.
  unfold for_each_key_step. simpl. rewrite lookup_singleton_eq. simpl. destruct (f n d); simpl; [|done].
  by rewrite insert_singleton_eq.
Qed.

Lemma fails_evidence_lone n ht :
  fails_evidence (lone_person n) {[n]} ht = Some false.
Proof.
  unfold fails_evidence, lone_person. rewrite elements_singleton. simpl.
  unfold violates. by rewrite lookup_singleton_eq.
Qed.

Lemma lone_body n d og tg ht :
  (p ← joint_probability PROBS (lone_person n) og tg ht;
   update {[n := d]} og tg ht p)
  = d' ← lone_update (bool_decide (n ∈ og)) (bool_decide (n ∈ tg))
           (bool_decide (n ∈ ht)) d;
    Some {[n := d']}.
Proof.
  rewrite joint_probability_value. simpl. unfold update.
  rewrite for_each_key_singleton. f_equal.
  unfold joint_value, lone_person. rewrite map_to_list_singleton. simpl.
  unfold product. simpl. rewrite Qcmult_1_r.
  unfold person_factor, update_person, lone_update, gene_count. simpl.
  by destruct (bool_decide (n ∈ og)), (bool_decide (n ∈ tg)),
    (bool_decide (n ∈ ht)).
Qed.

Lemma bool_decide_in_empty (n : string) :
  bool_decide (n ∈ (∅ : gset string)) = false.
Proof. apply bool_decide_eq_false_2, not_elem_of_empty. Qed.

Lemma bool_decide_in_singleton (n : string) :
  bool_decide (n ∈ ({[n]} : gset string)) = true.
Proof. by apply bool_decide_eq_true_2, elem_of_singleton_2. Qed.

Lemma dom_lone_person n : dom (lone_person n) = {[n]}.
Proof. unfold lone_person. by rewrite dom_singleton_L. Qed.

Lemma initial_probabilities_lone n :
  initial_probabilities (lone_person n)
  = {[ n := Dist {[ 2%nat := 0%Qc; 1%nat := 0%Qc; 0%nat := 0%Qc ]}
                 {[ true := 0%Qc; false := 0%Qc ]} ]}.
Proof.
  unfold initial_probabilities, lone_person. by rewrite map_fmap_singleton.
Qed.

Lemma main_lone n :
  main PROBS (lone_person n) = d ← lone_run; Some {[n := d]}.
Proof.
  unfold main. cbv zeta.
  rewrite dom_lone_person, initial_probabilities_lone.
  rewrite powerset_singleton. cbn [foldl].
  unfold trait_loop_body. cbn [mbind option_bind].
  rewrite !fails_evidence_lone. unfold gene_loop.
  rewrite !powerset_singleton. cbn [foldl].
  rewrite difference_empty_L, difference_diag_L.
  rewrite powerset_singleton, powerset_empty. cbn [foldl].
  unfold lone_run.
  do 6 (cbn [mbind option_bind]; rewrite lone_body;
        rewrite ?bool_decide_in_empty, ?bool_decide_in_singleton;
        destruct (lone_update _ _ _ _) as [?d|];
        [cbn [mbind option_bind]|reflexivity]).
  unfold normalize. by rewrite for_each_key_singleton.
Qed.

Lemma lone_run_gene :
  ∃ d, lone_run = Some d
       ∧ dist_gene d = {[ 0%nat := pct 96; 1%nat := pct 3; 2%nat := pct 1 ]}.
Proof.
  let v := eval vm_compute in lone_run in
  lazymatch v with Some ?d => exists d end.
  split; [vm_compute; reflexivity|].
  apply map_eq. intros k.
  destruct (decide (k ∈ ({[0; 1; 2]} : gset nat))) as [Hk|Hk].
  - assert (Hc : k = 0%nat ∨ k = 1%nat ∨ k = 2%nat) by set_solver.
    destruct Hc as [-> | [-> | ->]].
    all: match goal with
         | |- ?l = ?r =>
             let a := eval vm_compute in l in
             let b := eval vm_compute in r in
             lazymatch a with
             | Some ?x =>
                 lazymatch b with
                 | Some ?y =>
                     transitivity (Some y);
                     [apply (Some_Qc_eq l y x);
                      [vm_compute; reflexivity|qc_closed]
                     |vm_compute; reflexivity]
                 end
             end
         end.
  - transitivity (@None Qc); [|symmetry]; apply not_elem_of_dom.
    + replace (dom _) with ({[0; 1; 2]} : gset nat);
        [done|vm_compute; reflexivity].
    + replace (dom _) with ({[0; 1; 2]} : gset nat);
        [done|vm_compute; reflexivity].
Qed.

(** C7. For a pedigree of exactly one person, without mother, father and
    trait evidence, the whole of [main] (enumeration, evidence test, joint
    probability, accumulation, normalization) ends with the person's gene
    distribution equal to the unconditional prior: 0.96 for no copy, 0.03
    for one and 0.01 for two. *)
Theorem lone_person_posterior_is_prior name :
  ∃ probabilities d,
    main PROBS (lone_person name) = Some probabilities
    ∧ probabilities !! name = Some d
    ∧ dist_gene d = PROBS_gene PROBS
    ∧ dist_gene d !! 0%nat = Some (pct 96)
    ∧ dist_gene d !! 1%nat = Some (pct 3)
    ∧ dist_gene d !! 2%nat = Some (pct 1).
Proof.
  destruct lone_run_gene as (d & Hrun & Hd).
  exists {[name := d]}, d. rewrite main_lone, Hrun.
  split; [reflexivity|].
  split; [apply lookup_singleton_eq|]. rewrite Hd.
  split; [vm_compute; reflexivity|].
  vm_compute. repeat split; reflexivity.
Qed.

(** ** Sums over subsets *)

Lemma total_app l1 l2 : total (l1 ++ l2) = (total l1 + total l2)%Qc.
Proof.
  unfold total. induction l1 as [|x l1 IH]; simpl; [ring|].
  rewrite IH. ring.
Qed.

Lemma total_Permutation l1 l2 : l1 ≡ₚ l2 → total l1 = total l2.
Proof.
  unfold total. induction 1 as [|x l1 l2 _ IH|x y l|l1 l2 l3 _ IH1 _ IH2];
    simpl; [done|by rewrite IH|ring|congruence].
Qed.

Lemma total_map_plus {A} (F G : A → Qc) l :
  (total (map F l) + total (map G l))%Qc
  = total (map (λ x, F x + G x)%Qc l).
Proof.
  unfold total. induction l as [|x l IH]; simpl; [ring|].
  rewrite <-IH. ring.
Qed.

Lemma total_map_ext {A} (F G : A → Qc) l :
  (∀ x, x ∈ l → F x = G x) → total (map F l) = total (map G l).
Proof.
  intros H. f_equal. apply map_ext_in. intros x Hx.
  by apply H, list_elem_of_In.
Qed.

Lemma total_bind {A B} (F : B → Qc) (f : A → list B) (l : list A) :
  total (map F (l ≫= f)) = total (map (λ x, total (map F (f x))) l).
Proof.
  induction l as [|x l IH]; [done|].
  change ((x :: l) ≫= f) with (f x ++ (l ≫= f)).
  rewrite map_app, total_app, IH. done.
Qed.

Lemma combinations_beyond {A} (l : list A) r :
  (length l < r)%nat → combinations l r = [].
Proof.
  revert r. induction l as [|x l IH]; intros [|r] Hr; simpl in *;
    [lia|done|lia|].
  by rewrite !IH by lia.
Qed.

Lemma combinations_0 {A} (l : list A) : combinations l 0 = [[]].
Proof. by destruct l. Qed.

Lemma combinations_cons {A} (x : A) l r :
  combinations (x :: l) (S r)
  = map (cons x) (combinations l r) ++ combinations l (S r).
Proof. reflexivity. Qed.

Lemma combinations_upto_cons {A} (x : A) l n :
  flat_map (combinations (x :: l)) (seq 0 (S n))
  ≡ₚ flat_map (combinations l) (seq 0 (S n))
     ++ map (cons x) (flat_map (combinations l) (seq 0 n)).
Proof.
  induction n as [|n IH].
  { simpl. by rewrite combinations_0. }
  rewrite (seq_S (S n)), !flat_map_app, IH.
  rewrite (seq_S n), flat_map_app, map_app.
  cbn [flat_map Nat.add]. rewrite !app_nil_r, combinations_cons.
  rewrite <-!(assoc (++)). do 2 apply Permutation_app_head.
  rewrite !(assoc (++) (map (cons x) _)). apply Permutation_app_comm.
Qed.

Lemma all_combinations_cons {A} (x : A) l :
  all_combinations (x :: l)
  ≡ₚ all_combinations l ++ map (cons x) (all_combinations l).
Proof.
  unfold all_combinations. simpl length.
  rewrite combinations_upto_cons.
  rewrite (seq_S (S (length l))), flat_map_app. simpl flat_map at 2.
  by rewrite combinations_beyond, !app_nil_r by lia.
Qed.

(** The sum over the sublists of [l], of a function of the set they hold. *)
Lemma sum_sublists_cons (F : gset string → Qc) x l :
  total (map (λ c, F (list_to_set c)) (all_combinations (x :: l)))
  = total (map (λ c, F (list_to_set c) + F ({[x]} ∪ list_to_set c))%Qc
             (all_combinations l)).
Proof.
  rewrite (total_Permutation _ _
             (Permutation_map _ (all_combinations_cons x l))).
  rewrite map_app, total_app, map_map. apply total_map_plus.
Qed.

Lemma sum_sublists_Permutation l l' :
  l ≡ₚ l' → ∀ F : gset string → Qc,
  total (map (λ c, F (list_to_set c)) (all_combinations l))
  = total (map (λ c, F (list_to_set c)) (all_combinations l')).
Proof.
  induction 1 as [|x l l' _ IH|x y l|l1 l2 l3 _ IH1 _ IH2]; intros F.
  - done.
  - rewrite !sum_sublists_cons.
    apply (IH (λ s, F s + F ({[x]} ∪ s))%Qc).
  - rewrite !sum_sublists_cons.
    rewrite (sum_sublists_cons (λ s, F s + F ({[y]} ∪ s))%Qc).
    rewrite (sum_sublists_cons (λ s, F s + F ({[x]} ∪ s))%Qc).
    apply total_map_ext. intros c _.
    rewrite (assoc_L (∪) {[y]} {[x]}), (assoc_L (∪) {[x]} {[y]}).
    rewrite (comm_L (∪) {[y]} {[x]}). ring.
  - by rewrite IH1, IH2.
Qed.

Lemma sum_subsets_unfold X F :
  sum_subsets X F
  = total (map (λ c, F (list_to_set c)) (all_combinations (elements X))).
Proof. unfold sum_subsets, powerset. by rewrite map_map. Qed.

Lemma sum_subsets_empty F : sum_subsets ∅ F = F ∅.
Proof.
  unfold sum_subsets. rewrite powerset_empty. unfold total. simpl. ring.
Qed.

Lemma sum_subsets_insert x X F :
  x ∉ X →
  sum_subsets ({[x]} ∪ X) F = sum_subsets X (λ s, F s + F ({[x]} ∪ s))%Qc.
Proof.
  intros Hx. rewrite !sum_subsets_unfold.
  rewrite (sum_sublists_Permutation _ _ (elements_union_singleton X x Hx)).
  apply sum_sublists_cons.
Qed.

Lemma sum_subsets_ext X F F' :
  (∀ s, s ⊆ X → F s = F' s) → sum_subsets X F = sum_subsets X F'.
Proof.
  revert F F'. induction X as [|x X Hx IH] using set_ind_L; intros F F' H.
  - rewrite !sum_subsets_empty. by apply H.
  - rewrite !sum_subsets_insert by done. apply IH. intros s Hs.
    rewrite (H s), (H ({[x]} ∪ s)); [done|set_solver..].
Qed.

Lemma sum_subsets_plus X F F' :
  (sum_subsets X F + sum_subsets X F')%Qc
  = sum_subsets X (λ s, F s + F' s)%Qc.
Proof. unfold sum_subsets. apply total_map_plus. Qed.

Lemma sum_hypotheses_empty G : sum_hypotheses ∅ G = G ∅ ∅ ∅.
Proof.
  unfold sum_hypotheses. by rewrite !sum_subsets_empty.
Qed.

Lemma sum_hypotheses_ext X G G' :
  (∀ og tg ht, og ⊆ X → tg ⊆ X ∖ og → ht ⊆ X →
     G og tg ht = G' og tg ht) →
  sum_hypotheses X G = sum_hypotheses X G'.
Proof.
  intros H. unfold sum_hypotheses.
  apply sum_subsets_ext. intros ht Hht.
  apply sum_subsets_ext. intros og Hog.
  apply sum_subsets_ext. intros tg Htg. by apply H.
Qed.

(** Adding a person [x] to the population: the gene loops visit, for every
    pair they visited before, the same pair with [x] in no gene set, in
    [two_genes], and in [one_gene]. *)
Lemma sum_gene_pairs_insert x X (H : gset string → gset string → Qc) :
  x ∉ X →
  sum_subsets ({[x]} ∪ X) (λ og, sum_subsets (({[x]} ∪ X) ∖ og) (H og))
  = sum_subsets X (λ og, sum_subsets (X ∖ og) (λ tg,
      H og tg + H og ({[x]} ∪ tg) + H ({[x]} ∪ og) tg))%Qc.
Proof.
  intros Hx. rewrite sum_subsets_insert by done.
  apply sum_subsets_ext. intros og Hog.
  replace (({[x]} ∪ X) ∖ og) with ({[x]} ∪ X ∖ og) by set_solver.
  replace (({[x]} ∪ X) ∖ ({[x]} ∪ og)) with (X ∖ og) by set_solver.
  rewrite sum_subsets_insert by set_solver.
  by rewrite sum_subsets_plus.
Qed.

Lemma sum_hypotheses_insert x X G :
  x ∉ X →
  sum_hypotheses ({[x]} ∪ X) G
  = sum_hypotheses X (λ og tg ht,
      G og tg ht + G og ({[x]} ∪ tg) ht + G ({[x]} ∪ og) tg ht
      + (G og tg ({[x]} ∪ ht) + G og ({[x]} ∪ tg) ({[x]} ∪ ht)
         + G ({[x]} ∪ og) tg ({[x]} ∪ ht)))%Qc.
Proof.
  intros Hx. unfold sum_hypotheses. rewrite sum_subsets_insert by done.
  apply sum_subsets_ext. intros ht _.
  rewrite !(sum_gene_pairs_insert x X) by done.
  rewrite sum_subsets_plus. apply sum_subsets_ext. intros og _.
  by rewrite sum_subsets_plus.
Qed.

(** ** The joint distribution sums to one *)

Lemma gene_prior_total :
  (gene_prior 0 + gene_prior 1 + gene_prior 2 = 1)%Qc.
Proof. qc_closed. Qed.

Lemma trait_prob_total g : (trait_prob g true + trait_prob g false = 1)%Qc.
Proof. destruct g as [|[|g]]; qc_closed. Qed.

Lemma child_prob_total mg fg :
  (child_prob mg fg 0 + child_prob mg fg 1 + child_prob mg fg 2 = 1)%Qc.
Proof. simpl. ring. Qed.

(** Summed over the six ways to place [x] in a hypothesis, the factor of
    [x] is 1, whatever the parents' gene counts are. *)
Lemma person_factor_total og tg ht x v :
  x ∉ og → x ∉ tg → x ∉ ht →
  person_mother v ≠ Some x → person_father v ≠ Some x →
  (person_factor og tg ht x v
   + person_factor og ({[x]} ∪ tg) ht x v
   + person_factor ({[x]} ∪ og) tg ht x v
   + (person_factor og tg ({[x]} ∪ ht) x v
      + person_factor og ({[x]} ∪ tg) ({[x]} ∪ ht) x v
      + person_factor ({[x]} ∪ og) tg ({[x]} ∪ ht) x v) = 1)%Qc.
Proof.
  intros Hog Htg Hht Hm Hf. unfold person_factor.
  assert (Hp : ∀ p og' tg', p ≠ Some x →
            (∀ n, n ≠ x → (n ∈ og' ↔ n ∈ og) ∧ (n ∈ tg' ↔ n ∈ tg)) →
            gene_count og' tg' p = gene_count og tg p).
  { intros p og' tg' Hpx H. apply gene_count_ext.
    intros n ->. apply H. congruence. }
  rewrite !(Hp (person_mother v) og ({[x]} ∪ tg)),
    !(Hp (person_mother v) ({[x]} ∪ og) tg),
    !(Hp (person_father v) og ({[x]} ∪ tg)),
    !(Hp (person_father v) ({[x]} ∪ og) tg) by (done || set_solver).
  assert (H0 : gene_count og tg (Some x) = 0%nat).
  { unfold gene_count. simpl. by rewrite !bool_decide_eq_false_2. }
  assert (H2 : gene_count og ({[x]} ∪ tg) (Some x) = 2%nat).
  { unfold gene_count. simpl. rewrite bool_decide_eq_false_2 by done.
    by rewrite bool_decide_eq_true_2 by set_solver. }
  assert (H1 : gene_count ({[x]} ∪ og) tg (Some x) = 1%nat).
  { unfold gene_count. simpl.
    by rewrite bool_decide_eq_true_2 by set_solver. }
  rewrite H0, H1, H2.
  rewrite (bool_decide_eq_false_2 (x ∈ ht)) by done.
  rewrite (bool_decide_eq_true_2 (x ∈ {[x]} ∪ ht)) by set_solver.
  pose proof (trait_prob_total 0) as T0.
  pose proof (trait_prob_total 1) as T1.
  pose proof (trait_prob_total 2) as T2.
  set (mg := gene_count og tg (person_mother v)).
  set (fg := gene_count og tg (person_father v)).
  pose proof (child_prob_total mg fg) as C.
  pose proof gene_prior_total as G.
  destruct (person_mother v), (person_father v).
  4: { transitivity
         (gene_prior 0 * (trait_prob 0 true + trait_prob 0 false)
          + gene_prior 1 * (trait_prob 1 true + trait_prob 1 false)
          + gene_prior 2 * (trait_prob 2 true + trait_prob 2 false))%Qc;
         [ring|]. rewrite T0, T1, T2, !Qcmult_1_r. exact G. }
  all: transitivity
         (child_prob mg fg 0 * (trait_prob 0 true + trait_prob 0 false)
          + child_prob mg fg 1 * (trait_prob 1 true + trait_prob 1 false)
          + child_prob mg fg 2 * (trait_prob 2 true + trait_prob 2 false))%Qc;
    [ring|]; rewrite T0, T1, T2, !Qcmult_1_r; exact C.
Qed.

Lemma max_rank_key (rank : string → nat) (X : gset string) :
  X ≠ ∅ → ∃ x, x ∈ X ∧ ∀ y, y ∈ X → (rank y ≤ rank x)%nat.
Proof.
  induction X as [|x X Hx IH] using set_ind_L; [done|]. intros _.
  destruct (decide (X = ∅)) as [->|Hne].
  - exists x. split; [set_solver|]. intros y Hy.
    assert (y = x) as -> by set_solver. done.
  - destruct (IH Hne) as (m & Hm & Hmax).
    destruct (decide (rank m ≤ rank x)%nat) as [Hle|Hgt].
    + exists x. split; [set_solver|].
      intros y [->%elem_of_singleton|Hy]%elem_of_union; [done|].
      specialize (Hmax y Hy). lia.
    + exists m. split; [set_solver|].
      intros y [->%elem_of_singleton|Hy]%elem_of_union; [lia|].
      by apply Hmax.
Qed.

(** Over a pedigree without a cycle the joint values of all hypotheses add
    up to 1: the person of highest rank is nobody's parent, so summing that
    person out leaves the same sum over the rest of the pedigree. *)
Lemma sum_hypotheses_joint_value rank n :
  ∀ people, size people = n → ranked rank people →
  sum_hypotheses (dom people) (joint_value people) = 1%Qc.
Proof.
  induction n as [|n IH]; intros people Hsize Hrank.
  - apply map_size_empty_inv in Hsize as ->.
    rewrite dom_empty_L, sum_hypotheses_empty. apply joint_value_empty.
  - destruct (max_rank_key rank (dom people)) as (x & Hx & Hmax).
    { intros Hd. apply dom_empty_inv_L in Hd as ->.
      by rewrite map_size_empty in Hsize. }
    apply elem_of_dom in Hx as [v Hv].
    set (rest := delete x people).
    assert (Hrest : rest !! x = None) by apply lookup_delete_eq.
    assert (Hpeople : people = <[x := v]> rest).
    { unfold rest. by rewrite insert_delete_id. }
    assert (Hxd : x ∉ dom rest) by by apply not_elem_of_dom.
    assert (Hself : person_mother v ≠ Some x ∧ person_father v ≠ Some x).
    { pose proof (Hrank x v Hv) as Hr. simpl in Hr.
      split; intros Heq;
        [specialize (Hr x (or_introl Heq))
        |specialize (Hr x (or_intror Heq))]; lia. }
    assert (Hleaf : ∀ person value, rest !! person = Some value →
              person ≠ x ∧ person_mother value ≠ Some x
              ∧ person_father value ≠ Some x).
    { intros person value Hp.
      apply lookup_delete_Some in Hp as [Hne Hp].
      pose proof (Hrank person value Hp) as Hr. simpl in Hr.
      assert (rank person ≤ rank x)%nat.
      { apply Hmax, elem_of_dom. eauto. }
      split; [done|].
      split; intros Heq;
        [specialize (Hr x (or_introl Heq))
        |specialize (Hr x (or_intror Heq))]; lia. }
    rewrite Hpeople at 1. rewrite dom_insert_L.
    rewrite sum_hypotheses_insert by done.
    rewrite <-(IH rest).
    + apply sum_hypotheses_ext. intros og tg ht Hog Htg Hht.
      rewrite Hpeople, !joint_value_insert by done.
      assert (Hsame : ∀ og' tg' ht',
                (∀ n, n ≠ x → (n ∈ og' ↔ n ∈ og) ∧ (n ∈ tg' ↔ n ∈ tg)
                              ∧ (n ∈ ht' ↔ n ∈ ht)) →
                joint_value rest og' tg' ht' = joint_value rest og tg ht).
      { intros og' tg' ht' Hag. apply joint_value_ext.
        intros person value Hp.
        destruct (Hleaf person value Hp) as (Hne & Hm & Hf).
        split; [by apply Hag|].
        intros y Hy. assert (y ≠ x) by (destruct Hy as [->|[?|?]]; congruence).
        split; by apply Hag. }
      rewrite !(Hsame og ({[x]} ∪ tg) ht), !(Hsame ({[x]} ∪ og) tg ht),
        !(Hsame og tg ({[x]} ∪ ht)), !(Hsame og ({[x]} ∪ tg) ({[x]} ∪ ht)),
        !(Hsame ({[x]} ∪ og) tg ({[x]} ∪ ht)) by set_solver.
      destruct Hself as [Hm Hf].
      pose proof (person_factor_total og tg ht x v) as Ht.
      rewrite <-(Qcmult_1_l (joint_value rest og tg ht)) at 7.
      rewrite <-Ht by set_solver. ring.
    + unfold rest. rewrite map_size_delete, Hv, Hsize. done.
    + unfold rest. by apply map_Forall_delete.
Qed.

(** ** The enumeration is what the loops of [main] visit *)

Lemma foldl_bind {A B C} (g : C → B → C) (f : A → list B) a l :
  foldl g a (l ≫= f) = foldl (λ acc x, foldl g acc (f x)) a l.
Proof.
  revert a. induction l as [|x l IH]; intros a; [done|].
  change ((x :: l) ≫= f) with (f x ++ (l ≫= f)).
  by rewrite foldl_app, IH.
Qed.

Lemma foldl_pointwise {A B} (g g' : B → A → B) a l :
  (∀ b x, g b x = g' b x) → foldl g a l = foldl g' a l.
Proof.
  intros H. revert a. induction l as [|x l IH]; intros a; [done|].
  simpl. by rewrite H, IH.
Qed.

(** With the evidence test left out, the three nested loops of [main] are
    one pass over [enumeration names], each triple getting its joint
    probability added to the accumulator. *)
Lemma loops_visit_enumeration P people names acc :
  foldl (λ acc have_trait,
    foldl (λ acc one_gene,
      foldl (λ acc two_genes,
        probabilities ← acc;
        p ← joint_probability P people one_gene two_genes have_trait;
        update probabilities one_gene two_genes have_trait p)
        acc (powerset (names ∖ one_gene)))
      acc (powerset names))
    acc (powerset names)
  = foldl (λ acc (h : gset string * gset string * gset string),
      probabilities ← acc;
      p ← joint_probability P people h.1.2 h.2 h.1.1;
      update probabilities h.1.2 h.2 h.1.1 p) acc (enumeration names).
Proof.
  unfold enumeration. rewrite foldl_bind.
  apply foldl_pointwise. intros acc1 ht. rewrite foldl_bind.
  apply foldl_pointwise. intros acc2 og. rewrite foldl_bind.
  by apply foldl_pointwise.
Qed.

Lemma gene_loop_visits_pairs P people names have_trait probabilities :
  gene_loop P people names have_trait probabilities
  = foldl (λ acc (h : gset string * gset string),
      probabilities ← acc;
      p ← joint_probability P people h.1 h.2 have_trait;
      update probabilities h.1 h.2 have_trait p) (Some probabilities)
      (one_gene ← powerset names;
       two_genes ← powerset (names ∖ one_gene);
       [(one_gene, two_genes)]).
Proof.
  unfold gene_loop. rewrite foldl_bind.
  apply foldl_pointwise. intros acc og. rewrite foldl_bind.
  by apply foldl_pointwise.
Qed.

Lemma enumeration_sum_loop people l a :
  foldl (λ acc (h : gset string * gset string * gset string),
           total ← acc;
           p ← joint_probability PROBS people h.1.2 h.2 h.1.1;
           Some (total + p)%Qc) (Some a) l
  = Some (a + total (map (λ h : gset string * gset string * gset string,
                        joint_value people h.1.2 h.2 h.1.1) l))%Qc.
Proof.
  revert a. induction l as [|h l IH]; intros a; simpl.
  - f_equal. unfold total. simpl. ring.
  - rewrite joint_probability_value. simpl. rewrite IH. f_equal.
    unfold total. simpl. ring.
Qed.

Lemma enumeration_sum_value people :
  enumeration_sum PROBS people
  = Some (sum_hypotheses (dom people) (joint_value people)).
Proof.
  unfold enumeration_sum. rewrite enumeration_sum_loop. f_equal.
  rewrite Qcplus_0_l. unfold enumeration, sum_hypotheses, sum_subsets.
  rewrite total_bind. apply total_map_ext. intros ht _.
  rewrite total_bind. apply total_map_ext. intros og _.
  rewrite total_bind. apply total_map_ext. intros tg _.
  unfold total. simpl. ring.
Qed.

(** C2, for pedigrees without a cycle.  When every person has both parents
    in the pedigree or none, and no person is their own ancestor (some rank
    is higher for a child than for each parent), the sum of
    [joint_probability] over the whole enumeration of [main], with no
    evidence test, is exactly 1. *)
Theorem enumeration_sum_is_one people rank :
  both_or_neither people →
  ranked rank people →
  enumeration_sum PROBS people = Some 1%Qc.
Proof.
  intros _ Hrank. rewrite enumeration_sum_value. f_equal.
  by apply (sum_hypotheses_joint_value rank (size people)).
Qed.

Lemma enumeration_sum_is_one_witness :
  both_or_neither family ∧ ranked family_rank family
  ∧ enumeration_sum PROBS family = Some 1%Qc.
Proof.
  assert (Hb : both_or_neither family).
  { unfold both_or_neither, family.
    repeat (apply map_Forall_insert_2 || apply map_Forall_empty);
      simpl; rewrite ?dom_insert_L; done. }
  assert (Hr : ranked family_rank family).
  { unfold ranked, family.
    repeat (apply map_Forall_insert_2 || apply map_Forall_empty);
      simpl; try done; intros p [H|H]; try discriminate H;
      injection H as <-; vm_compute; lia. }
  split; [exact Hb|]. split; [exact Hr|].
  exact (enumeration_sum_is_one family family_rank Hb Hr).
Defined.

(** C2, as stated, fails: a person recorded as their own mother and father
    satisfies the stated pedigree condition, and the sum over the
    enumeration is 2.4602. *)
Lemma enumeration_sum_self_parent :
  both_or_neither self_parent
  ∧ enumeration_sum PROBS self_parent = Some (Q2Qc (12301 # 5000))
  ∧ enumeration_sum PROBS self_parent ≠ Some 1%Qc.
Proof.
  assert (He : enumeration_sum PROBS self_parent
               = Some (Q2Qc (12301 # 5000))) by qc_lookup.
  split; [|split; [exact He|]].
  - unfold both_or_neither, self_parent. apply map_Forall_singleton. simpl.
    rewrite dom_singleton_L. split; set_solver.
  - rewrite He. by intros [= ?].
Qed.

(** * Further properties of the code *)

(** ** [powerset] lists every subset, once *)

Lemma elem_of_combinations {A} (l : list A) r c :
  c ∈ combinations l r ↔ c `sublist_of` l ∧ length c = r.
Proof.
  revert r c. induction l as [|x l IH]; intros [|r] c; simpl.
  - rewrite list_elem_of_singleton, sublist_nil_r.
    split; [by intros ->|by intros [-> _]].
  - rewrite elem_of_nil, sublist_nil_r. split; [done|]. by intros [-> ?].
  - rewrite list_elem_of_singleton. split.
    + intros ->. split; [apply sublist_nil_l|done].
    + intros [_ Hc]. by destruct c.
  - rewrite elem_of_app, IH, sublist_cons_r. split.
    + intros [(c' & -> & Hc')%list_elem_of_fmap|[Hs Hl]].
      * apply IH in Hc' as [Hs Hl]. split; [right; eauto|]. simpl. lia.
      * split; [by left|done].
    + intros [[Hs|(c' & -> & Hs)] Hl].
      * by right.
      * left. apply list_elem_of_fmap. exists c'. split; [done|].
        apply IH. split; [done|]. simpl in Hl. lia.
Qed.

Lemma elem_of_all_combinations {A} (l : list A) c :
  c ∈ all_combinations l ↔ c `sublist_of` l.
Proof.
  unfold all_combinations. rewrite list_elem_of_In, in_flat_map. split.
  - intros (r & _ & Hc). apply list_elem_of_In in Hc.
    by apply elem_of_combinations in Hc as [Hs _].
  - intros Hs. exists (length c). split.
    + apply in_seq. apply sublist_length in Hs. lia.
    + apply list_elem_of_In, elem_of_combinations. done.
Qed.

Lemma length_all_combinations {A} (l : list A) :
  length (all_combinations l) = (2 ^ length l)%nat.
Proof.
  induction l as [|x l IH]; [done|].
  rewrite (Permutation_length (all_combinations_cons x l)).
  rewrite length_app, length_map, IH. simpl. lia.
Qed.

Lemma elem_of_powerset (X s : gset string) : s ∈ powerset X ↔ s ⊆ X.
Proof.
  unfold powerset. rewrite list_elem_of_fmap. split.
  - intros (c & -> & Hc%elem_of_all_combinations). intros x Hx.
    apply elem_of_list_to_set in Hx. apply elem_of_elements.
    by eapply elem_of_sublist.
  - intros Hs. exists (filter (.∈ s) (elements X)). split.
    + apply set_eq. intros x.
      rewrite elem_of_list_to_set, list_elem_of_filter, elem_of_elements.
      set_solver.
    + apply elem_of_all_combinations, sublist_filter.
Qed.

Lemma NoDup_sets_of_combinations (l : list string) :
  NoDup l → NoDup (map (list_to_set (C:=gset string)) (all_combinations l)).
Proof.
  induction 1 as [|x l Hx Hnd IH]; [by apply NoDup_singleton|].
  rewrite (Permutation_map _ (all_combinations_cons x l)).
  rewrite map_app, map_map.
  assert (Hsub : ∀ s : gset string,
            s ∈ map list_to_set (all_combinations l) → x ∉ s).
  { intros s (c & -> & Hc%elem_of_all_combinations)%list_elem_of_fmap Hin.
    apply elem_of_list_to_set in Hin. apply Hx.
    by eapply elem_of_sublist. }
  apply NoDup_app. split; [done|]. split.
  - intros s Hs (c & -> & _)%list_elem_of_fmap.
    apply (Hsub _ Hs). set_solver.
  - change (λ c : list string, list_to_set (x :: c))
      with (λ c : list string,
              ({[x]} : gset string) ∪ list_to_set c).
    rewrite <-(map_map list_to_set (λ s : gset string, {[x]} ∪ s)).
    apply (NoDup_fmap_2_strong (λ s : gset string, {[x]} ∪ s)); [|done].
    intros s1 s2 H1 H2 Heq. apply Hsub in H1, H2. set_solver.
Qed.

(** X1. [powerset(s)] lists the subsets of [s] and nothing else: a set is
    in the list exactly when it is a subset of [s]; in particular the empty
    set and [s] itself are listed. *)
Theorem powerset_lists_the_subsets (X : gset string) :
  (∀ s, s ∈ powerset X ↔ s ⊆ X) ∧ ∅ ∈ powerset X ∧ X ∈ powerset X.
Proof.
  split; [apply elem_of_powerset|].
  split; apply elem_of_powerset; set_solver.
Qed.

(** X2. [powerset(s)] lists no subset twice and has [2 ** len(s)]
    elements. *)
Theorem powerset_lists_each_subset_once (X : gset string) :
  NoDup (powerset X) ∧ length (powerset X) = (2 ^ size X)%nat.
Proof.
  split; [apply NoDup_sets_of_combinations, NoDup_elements|].
  unfold powerset. by rewrite length_map, length_all_combinations.
Qed.

(** X3. [itertools.combinations(s, r)], as [powerset] uses it, yields
    exactly the subsequences of [s] of length [r]; for [r] beyond
    [len(s)] it yields nothing. *)
Theorem combinations_are_the_subsequences {A} (s : list A) (r : nat) :
  (∀ c, c ∈ combinations s r ↔ c `sublist_of` s ∧ length c = r)
  ∧ ∀ k, combinations s (S (length s + k)) = [].
Proof.
  split; [apply elem_of_combinations|].
  intros k. apply combinations_beyond. lia.
Qed.

(** ** The enumeration of [main] *)

Lemma elem_of_enumeration X (h : gset string * gset string * gset string) :
  h ∈ enumeration X ↔ h.1.1 ⊆ X ∧ h.1.2 ⊆ X ∧ h.2 ⊆ X ∖ h.1.2.
Proof.
  destruct h as [[ht og] tg]. unfold enumeration. simpl.
  rewrite list_elem_of_bind. setoid_rewrite list_elem_of_bind.
  setoid_rewrite list_elem_of_bind.
  setoid_rewrite list_elem_of_singleton. setoid_rewrite elem_of_powerset.
  split.
  - intros (ht' & (og' & (tg' & [= -> -> ->] & Htg) & Hog) & Hht). done.
  - intros (Hht & Hog & Htg). exists ht. split; [|done].
    exists og. split; [|done]. exists tg. done.
Qed.



Lemma powerset_insert x (X : gset string) :
  x ∉ X →
  powerset ({[x]} ∪ X)
  ≡ₚ powerset X ++ map (λ s : gset string, {[x]} ∪ s) (powerset X).
Proof.
  intros Hx. apply NoDup_Permutation.
  - apply NoDup_sets_of_combinations, NoDup_elements.
  - apply NoDup_app. split; [|split].
    + apply NoDup_sets_of_combinations, NoDup_elements.
    + intros s Hs%elem_of_powerset (s' & -> & _)%list_elem_of_fmap.
      set_solver.
    + apply (NoDup_fmap_2_strong (λ s : gset string, {[x]} ∪ s)).
      * intros s1 s2 H1%elem_of_powerset H2%elem_of_powerset Heq.
        set_solver.
      * apply NoDup_sets_of_combinations, NoDup_elements.
  - intros s. rewrite elem_of_app, list_elem_of_fmap, elem_of_powerset.
    setoid_rewrite elem_of_powerset. split.
    + intros Hs. destruct (decide (x ∈ s)).
      * right. exists (s ∖ {[x]}). split; [|set_solver].
        apply set_eq. intros y. destruct (decide (y = x)); set_solver.
      * left. set_solver.
    + intros [Hs|(s' & -> & Hs)]; set_solver.
Qed.

Lemma length_list_bind {A B} (f : A → list B) (l : list A) :
  length (l ≫= f) = sum_list_with (λ x, length (f x)) l.
Proof.
  induction l as [|x l IH]; [done|].
  change ((x :: l) ≫= f) with (f x ++ (l ≫= f)).
  rewrite length_app, IH. done.
Qed.

Lemma sum_list_with_pointwise {A} (f g : A → nat) (l : list A) :
  (∀ x, x ∈ l → f x = g x) → sum_list_with f l = sum_list_with g l.
Proof.
  induction l as [|x l IH]; intros H; [done|]. simpl.
  rewrite (H x) by left. rewrite IH; [done|]. intros y Hy. apply H. by right.
Qed.

Lemma sum_list_with_Permutation {A} (f : A → nat) (l k : list A) :
  l ≡ₚ k → sum_list_with f l = sum_list_with f k.
Proof. induction 1; simpl; lia. Qed.

Lemma sum_list_with_map {A B} (f : B → nat) (g : A → B) (l : list A) :
  sum_list_with f (map g l) = sum_list_with (λ x, f (g x)) l.
Proof. induction l as [|x l IH]; simpl; [done|]. by rewrite IH. Qed.

Lemma length_powerset (X : gset string) :
  length (powerset X) = (2 ^ size X)%nat.
Proof. unfold powerset. by rewrite length_map, length_all_combinations. Qed.

Lemma count_gene_pairs (X : gset string) :
  sum_list_with (λ og, length (powerset (X ∖ og))) (powerset X)
  = (3 ^ size X)%nat.
Proof.
  induction X as [|x X Hx IH] using set_ind_L.
  - rewrite powerset_empty, size_empty. cbn [sum_list_with].
    by rewrite difference_diag_L, powerset_empty.
  - rewrite (sum_list_with_Permutation _ _ _ (powerset_insert x X Hx)).
    rewrite sum_list_with_app, sum_list_with_map.
    rewrite size_union, size_singleton by set_solver.
    replace (3 ^ (1 + size X))%nat with (3 * 3 ^ size X)%nat
      by (simpl; lia).
    rewrite <-IH.
    rewrite (sum_list_with_pointwise _
               (λ og, 2 * length (powerset (X ∖ og)))%nat).
    2:{ intros og Hog%elem_of_powerset. rewrite !length_powerset.
        replace (({[x]} ∪ X) ∖ og) with ({[x]} ∪ X ∖ og) by set_solver.
        rewrite size_union, size_singleton by set_solver. done. }
    rewrite (sum_list_with_pointwise
               (λ og, length (powerset (({[x]} ∪ X) ∖ ({[x]} ∪ og))))
               (λ og, length (powerset (X ∖ og)))).
    2:{ intros og Hog%elem_of_powerset.
        by replace (({[x]} ∪ X) ∖ ({[x]} ∪ og)) with (X ∖ og)
          by set_solver. }
    generalize (powerset X). intros l.
    induction l as [|og l IHl]; simpl in *; lia.
Qed.

(** X5. With nothing rejected, the loops of [main] visit [6 ** n]
    hypotheses for [n] people: [2 ** n] trait sets times [3 ** n] pairs of
    gene sets. *)
Theorem length_enumeration (X : gset string) :
  length (enumeration X) = (6 ^ size X)%nat.
Proof.
  unfold enumeration. rewrite length_list_bind.
  rewrite (sum_list_with_pointwise _ (λ _, 3 ^ size X)%nat).
  - change 6%nat with (2 * 3)%nat. rewrite Nat.pow_mul_l.
    rewrite <-(length_powerset X).
    generalize (powerset X). intros l.
    induction l as [|ht l IHl]; simpl in *; lia.
  - intros ht _. rewrite length_list_bind. rewrite <-count_gene_pairs.
    apply sum_list_with_pointwise. intros og _.
    rewrite length_list_bind. generalize (powerset (X ∖ og)). intros l.
    induction l as [|tg l IHl]; simpl in *; lia.
Qed.

(** ** The child table *)

Lemma pass_bounds g : (0 < pass g)%Qc ∧ (pass g < 1)%Qc.
Proof. destruct g as [|[|g]]; by vm_compute. Qed.

Lemma child_prob_bounds mg fg g :
  (g < 3)%nat → (0 < child_prob mg fg g)%Qc ∧ (child_prob mg fg g < 1)%Qc.
Proof.
  intros Hg.
  assert (Hc : ∀ k, (k < 3)%nat →
            child_prob mg fg k
            = child_prob (Nat.min mg 2) (Nat.min fg 2) k).
  { intros k Hk. unfold child_prob.
    assert (Hp : ∀ n, pass n = pass (Nat.min n 2)) by by intros [|[|[|n]]].
    by rewrite (Hp mg), (Hp fg). }
  rewrite (Hc g Hg).
  assert (Nat.min mg 2 < 3)%nat as Hm by lia.
  assert (Nat.min fg 2 < 3)%nat as Hf by lia.
  destruct (Nat.min mg 2) as [|[|[|?]]]; [| | |lia];
    (destruct (Nat.min fg 2) as [|[|[|?]]]; [| | |lia]);
    (destruct g as [|[|[|?]]]; [by vm_compute..|lia]).
Qed.

Lemma child_prob_sym mg fg g : child_prob mg fg g = child_prob fg mg g.
Proof. destruct g as [|[|g]]; simpl; ring. Qed.

(** X6. The table [prob_table] returns has the nine keys [(mg, fg)] with
    both counts in [range(3)] and no other, and each entry has the keys 0,
    1 and 2 and no other: looking up a gene count of 3 or more is a
    missing key. *)
Theorem prob_table_keys :
  ∃ table,
    prob_table PROBS = Some table
    ∧ (∀ mg fg, is_Some (table !! (mg, fg)) ↔ (mg < 3)%nat ∧ (fg < 3)%nat)
    ∧ (∀ mg fg entry g, table !! (mg, fg) = Some entry →
         (is_Some (entry !! g) ↔ (g < 3)%nat)).
Proof.
  destruct (prob_table_Some PROBS) as [table Ht]. exists table.
  split; [done|].
  assert (Hdom : ∀ mg fg, is_Some (table !! (mg, fg))
                          ↔ (mg < 3)%nat ∧ (fg < 3)%nat).
  { intros mg fg. split.
    - intros Hs. apply elem_of_dom in Hs.
      assert (Hd : dom table
                   = list_to_set (seq 0 3 ≫= λ mg, pair mg <$> seq 0 3)).
      { revert Ht. vm_compute. by intros [= <-]. }
      rewrite Hd in Hs. apply elem_of_list_to_set in Hs. simpl in Hs.
      repeat (apply elem_of_cons in Hs as [[= -> ->]|Hs]; [lia|]).
      by apply elem_of_nil in Hs.
    - intros [Hm Hf]. pose proof (prob_table_lookup PROBS mg fg Hm Hf) as Hl.
      rewrite Ht in Hl. simpl in Hl. rewrite Hl. unfold prob_table_entry.
      rewrite !parent_lookup by done. by eexists. }
  split; [exact Hdom|].
  intros mg fg entry g He.
  destruct (proj1 (Hdom mg fg)) as [Hm Hf]; [by eexists|].
  pose proof (prob_table_lookup PROBS mg fg Hm Hf) as Hl.
  rewrite Ht in Hl. simpl in Hl. rewrite He in Hl.
  unfold prob_table_entry in Hl. rewrite !parent_lookup in Hl by done.
  simpl in Hl. injection Hl as ->. split.
  - intros Hs. destruct g as [|[|[|g]]]; [lia..|].
    rewrite !lookup_insert_ne, lookup_empty in Hs by done.
    by destruct Hs.
  - intros Hg. destruct g as [|[|[|g]]]; [by eexists..|lia].
Qed.

(** X7. Every probability in the child table lies strictly between 0 and
    1, and the table does not tell mother from father: the entry for
    [(mg, fg)] is the entry for [(fg, mg)]. *)
Theorem prob_table_symmetric_and_bounded mg fg g :
  (mg < 3)%nat → (fg < 3)%nat → (g < 3)%nat →
  ∃ table p,
    prob_table PROBS = Some table
    ∧ lookup2 table (mg, fg) g = Some p
    ∧ lookup2 table (fg, mg) g = Some p
    ∧ (0 < p)%Qc ∧ (p < 1)%Qc.
Proof.
  intros Hm Hf Hg. destruct (prob_table_Some PROBS) as [table Ht].
  exists table, (child_prob mg fg g). split; [done|].
  split; [by apply table_lookup|].
  split; [rewrite child_prob_sym; by apply table_lookup|].
  by apply child_prob_bounds.
Qed.

Lemma prob_table_symmetric_and_bounded_witness :
  ∃ table p,
    prob_table PROBS = Some table
    ∧ lookup2 table (0%nat, 2%nat) 1%nat = Some p
    ∧ lookup2 table (2%nat, 0%nat) 1%nat = Some p
    ∧ (0 < p)%Qc ∧ (p < 1)%Qc.
Proof. apply (prob_table_symmetric_and_bounded 0 2 1); lia. Defined.

(** ** What [joint_probability] returns and what it reads *)

Lemma unit_interval_mult (a b : Qc) :
  (0 < a)%Qc ∧ (a ≤ 1)%Qc → (0 < b)%Qc ∧ (b ≤ 1)%Qc →
  (0 < a * b)%Qc ∧ (a * b ≤ 1)%Qc.
Proof.
  intros [Ha Ha'] [Hb Hb']. split; [by apply Qcmult_pos_pos|].
  apply Qcle_trans with (1 * b)%Qc.
  - by apply Qcmult_le_mono_pos_r.
  - by rewrite Qcmult_1_l.
Qed.

Lemma gene_prior_bounds g : (0 < gene_prior g)%Qc ∧ (gene_prior g ≤ 1)%Qc.
Proof. destruct g as [|[|g]]; by vm_compute. Qed.

Lemma trait_prob_bounds g t :
  (0 < trait_prob g t)%Qc ∧ (trait_prob g t ≤ 1)%Qc.
Proof. destruct g as [|[|g]], t; by vm_compute. Qed.

Lemma person_factor_bounds og tg ht person value :
  (0 < person_factor og tg ht person value)%Qc
  ∧ (person_factor og tg ht person value ≤ 1)%Qc.
Proof.
  unfold person_factor. apply unit_interval_mult;
    [|apply trait_prob_bounds].
  assert (Hc : ∀ mg fg,
            (0 < child_prob mg fg (gene_count og tg (Some person)))%Qc
            ∧ (child_prob mg fg (gene_count og tg (Some person)) ≤ 1)%Qc).
  { intros mg fg.
    destruct (child_prob_bounds mg fg (gene_count og tg (Some person)))
      as [H0 H1]; [apply gene_count_lt|].
    split; [done|by apply Qclt_le_weak]. }
  destruct (person_mother value), (person_father value);
    solve [apply Hc|apply gene_prior_bounds].
Qed.

Lemma joint_value_bounds people og tg ht :
  (0 < joint_value people og tg ht)%Qc
  ∧ (joint_value people og tg ht ≤ 1)%Qc.
Proof.
  unfold joint_value, product.
  induction (map_to_list people) as [|[person value] l IH]; simpl.
  - by vm_compute.
  - apply unit_interval_mult; [apply person_factor_bounds|exact IH].
Qed.

(** X8. For every pedigree and every hypothesis, [joint_probability]
    returns a number greater than 0 and at most 1: no hypothesis is given
    probability zero. *)
Theorem joint_probability_in_unit_interval people og tg ht :
  ∃ q, joint_probability PROBS people og tg ht = Some q
       ∧ (0 < q)%Qc ∧ (q ≤ 1)%Qc.
Proof.
  exists (joint_value people og tg ht).
  split; [apply joint_probability_value|apply joint_value_bounds].
Qed.

Lemma joint_value_fmap (f : person_info → person_info) people og tg ht :
  (∀ v, person_mother (f v) = person_mother v
        ∧ person_father (f v) = person_father v) →
  joint_value (f <$> people) og tg ht = joint_value people og tg ht.
Proof.
  intros Hf. unfold joint_value. rewrite map_to_list_fmap. f_equal.
  rewrite <-list_fmap_compose. apply list_fmap_ext.
  intros i [person value] _. simpl. unfold person_factor.
  by destruct (Hf value) as [-> ->].
Qed.

(** X9. [joint_probability] reads a person's key and the [mother] and
    [father] fields and nothing else: changing the recorded trait evidence
    or the [name] field of any record changes no result. *)
Theorem joint_probability_reads_only_parents
    (f : person_info → person_info) people og tg ht :
  (∀ v, person_mother (f v) = person_mother v
        ∧ person_father (f v) = person_father v) →
  joint_probability PROBS (f <$> people) og tg ht
  = joint_probability PROBS people og tg ht.
Proof.
  intros Hf. rewrite !joint_probability_value. f_equal.
  by apply joint_value_fmap.
Qed.

Lemma joint_probability_reads_only_parents_witness :
  let forget v := PersonInfo "" (person_mother v) (person_father v) None in
  joint_probability PROBS (forget <$> family)
    {["Harry"%string]} ∅ {["James"%string]}
  = joint_probability PROBS family {["Harry"%string]} ∅ {["James"%string]}.
Proof.
  intros forget.
  refine (joint_probability_reads_only_parents forget family _ _ _ _).
  intros v. split; reflexivity.
Defined.

(** X10. When a name is in both gene sets, [one_gene] wins: the result is
    the one for the hypothesis with [one_gene] taken out of [two_genes]. *)
Theorem joint_probability_one_gene_first people og tg ht :
  joint_probability PROBS people og tg ht
  = joint_probability PROBS people og (tg ∖ og) ht.
Proof.
  rewrite !joint_probability_value. f_equal. unfold joint_value. f_equal.
  apply map_ext. intros [person value]. simpl.
  assert (Hc : ∀ x, gene_count og tg x = gene_count og (tg ∖ og) x).
  { intros [n|]; [|done]. unfold gene_count. simpl.
    destruct (decide (n ∈ og)) as [Hn|Hn].
    - by rewrite !bool_decide_eq_true_2.
    - rewrite !(bool_decide_eq_false_2 (n ∈ og)) by done.
      apply (f_equal (λ b : bool, if b then 2%nat else 0%nat)).
      apply bool_decide_ext. set_solver. }
  unfold person_factor. by rewrite !Hc.
Qed.

(** ** When a loop over the keys of a dictionary fails *)

Lemma for_each_key_step_None {V} (f : string → V → option V) l :
  foldl (for_each_key_step f) None l = None.
Proof. induction l; [done|by simpl]. Qed.

Lemma for_each_key_loop_fails {V} (f : string → V → option V) l cur k v :
  NoDup l → k ∈ l → cur !! k = Some v → f k v = None →
  foldl (for_each_key_step f) (Some cur) l = None.
Proof.
  intros Hnd. revert cur.
  induction Hnd as [|key l Hnotin Hnd IH]; intros cur Hk Hv Hf.
  - by apply elem_of_nil in Hk.
  - simpl.
    destruct (cur !! key) as [v0|] eqn:Hv0; simpl;
      [|apply for_each_key_step_None].
    destruct (f key v0) as [v'|] eqn:Hf0; simpl;
      [|apply for_each_key_step_None].
    apply elem_of_cons in Hk as [->|Hk]; [congruence|].
    apply IH; [done| |done].
    rewrite lookup_insert_ne; [done|]. by intros ->.
Qed.

Lemma for_each_key_succeeds {V} (f : string → V → option V) d :
  (∀ k v, d !! k = Some v → is_Some (f k v)) →
  ∃ d', for_each_key f d = Some d' ∧ ∀ k, d' !! k = d !! k ≫= f k.
Proof.
  intros Hf.
  destruct (for_each_key_total f (λ k v, default v (f k v)) d)
    as (d' & Hd & Hl).
  { intros k v Hv. by destruct (Hf k v Hv) as [v' ->]. }
  exists d'. split; [done|]. intros k. rewrite Hl.
  destruct (d !! k) as [v|] eqn:Hv; [|done]. simpl.
  by destruct (Hf k v Hv) as [v' ->].
Qed.

Lemma for_each_key_None {V} (f : string → V → option V) d :
  for_each_key f d = None ↔ ∃ k v, d !! k = Some v ∧ f k v = None.
Proof.
  split.
  - intros Hn.
    destruct (decide (map_Forall (λ k v, is_Some (f k v)) d)) as [Ha|Hna].
    + destruct (for_each_key_succeeds f d Ha) as (d' & Hd & _). congruence.
    + apply map_not_Forall in Hna as (k & v & Hv & Hs); [|apply _].
      exists k, v. split; [done|]. by apply eq_None_not_Some.
  - intros (k & v & Hv & Hf). unfold for_each_key.
    eapply for_each_key_loop_fails; [apply NoDup_elements| |done..].
    apply elem_of_elements, elem_of_dom. eauto.
Qed.

Lemma for_each_key_Some {V} (f : string → V → option V) d d' :
  for_each_key f d = Some d' →
  (∀ k v, d !! k = Some v → is_Some (f k v))
  ∧ ∀ k, d' !! k = d !! k ≫= f k.
Proof.
  intros Hd.
  assert (Ha : ∀ k v, d !! k = Some v → is_Some (f k v)).
  { intros k v Hv. apply not_eq_None_Some. intros Hf.
    assert (for_each_key f d = None) by (apply for_each_key_None; eauto).
    congruence. }
  split; [done|].
  destruct (for_each_key_succeeds f d Ha) as (d'' & Hd'' & Hl).
  congruence.
Qed.

Lemma py_div_None a b : py_div a b = None ↔ b = 0%Qc.
Proof. unfold py_div. by destruct (decide (b = 0%Qc)). Qed.

Lemma elem_of_dict_values {K} `{Countable K} {V} (d : gmap K V) x :
  x ∈ dict_values d ↔ ∃ k, d !! k = Some x.
Proof.
  unfold dict_values. rewrite list_elem_of_fmap. split.
  - intros ([k v] & -> & Hkv). exists k. by apply elem_of_map_to_list.
  - intros (k & Hk). exists (k, x). split; [done|].
    by apply elem_of_map_to_list.
Qed.

(** A sum of numbers none of which is negative is zero only when all of
    them are zero. *)
Lemma py_sum_nonneg_zero l :
  (∀ x, x ∈ l → (0 ≤ x)%Qc) →
  (0 ≤ py_sum l)%Qc ∧ (py_sum l = 0%Qc ↔ ∀ x, x ∈ l → x = 0%Qc).
Proof.
  induction l as [|x l IH]; intros Hl.
  - split; [done|]. split; [|done]. intros _ x Hx. by apply elem_of_nil in Hx.
  - rewrite py_sum_cons.
    assert (Hx : (0 ≤ x)%Qc) by (apply Hl; left).
    destruct IH as [Hs Hz]; [intros y Hy; apply Hl; by right|].
    split; [by apply Qcplus_nonneg_nonneg|]. split.
    + intros Hsum.
      assert (Hx0 : x = 0%Qc).
      { apply Qcle_antisym; [|done]. rewrite <-Hsum.
        rewrite <-(Qcplus_0_r x) at 1. by apply Qcplus_le_compat. }
      assert (Hs0 : py_sum l = 0%Qc).
      { rewrite Hx0, Qcplus_0_l in Hsum. done. }
      intros y [->|Hy]%elem_of_cons; [done|]. by apply Hz.
    + intros Hall. rewrite (Hall x) by left.
      rewrite Qcplus_0_l. apply Hz. intros y Hy. apply Hall. by right.
Qed.

Lemma dict_sum_zero {K} `{Countable K} (d : gmap K Qc) :
  map_Forall (λ _ v, (0 ≤ v)%Qc) d →
  py_sum (dict_values d) = 0%Qc ↔ map_Forall (λ _ v, v = 0%Qc) d.
Proof.
  intros Hd.
  destruct (py_sum_nonneg_zero (dict_values d)) as [_ Hz].
  { intros x (k & Hk)%elem_of_dict_values. by apply (Hd k). }
  rewrite Hz. split.
  - intros Hall k v Hk. apply Hall, elem_of_dict_values. eauto.
  - intros Hall x (k & Hk)%elem_of_dict_values. by apply (Hall k).
Qed.

(** X11. On an accumulator no value of which is negative, as [main]
    builds them, [normalize] fails, with Python's [ZeroDivisionError],
    exactly when for some person every gene value is zero or every trait
    value is zero (a distribution without values counts as all zero). *)
Theorem normalize_fails_iff_all_zero probabilities :
  map_Forall (λ _ d,
    map_Forall (λ _ v, (0 ≤ v)%Qc) (dist_gene d)
    ∧ map_Forall (λ _ v, (0 ≤ v)%Qc) (dist_trait d)) probabilities →
  normalize probabilities = None
  ↔ ∃ person d,
      probabilities !! person = Some d
      ∧ (map_Forall (λ _ v, v = 0%Qc) (dist_gene d)
         ∨ map_Forall (λ _ v, v = 0%Qc) (dist_trait d)).
Proof.
  intros Hnn. unfold normalize. rewrite for_each_key_None.
  split; intros (person & d & Hd & H); exists person, d; (split; [done|]);
    destruct (Hnn person d Hd) as [Hg Ht].
  - rewrite <-(dict_sum_zero _ Hg), <-(dict_sum_zero _ Ht).
    unfold normalize_person in H.
    destruct (py_div 1 (py_sum (dict_values (dist_gene d)))) eqn:Eg;
      [|left; by apply (py_div_None 1)].
    destruct (py_div 1 (py_sum (dict_values (dist_trait d)))) eqn:Et;
      [done|right; by apply (py_div_None 1)].
  - rewrite <-(dict_sum_zero _ Hg), <-(dict_sum_zero _ Ht) in H.
    unfold normalize_person. destruct H as [H|H]; rewrite H.
    + done.
    + by destruct (py_div 1 (py_sum (dict_values (dist_gene d)))).
Qed.

Lemma normalize_fails_iff_all_zero_witness :
  normalize (initial_probabilities family) = None
  ↔ ∃ person d,
      initial_probabilities family !! person = Some d
      ∧ (map_Forall (λ _ v, v = 0%Qc) (dist_gene d)
         ∨ map_Forall (λ _ v, v = 0%Qc) (dist_trait d)).
Proof.
  apply (normalize_fails_iff_all_zero (initial_probabilities family)).
  intros person d Hd. unfold initial_probabilities in Hd.
  apply lookup_fmap_Some in Hd as (value & <- & _). simpl.
  split;
    [do 3 (apply map_Forall_insert_2; [apply Qcle_refl|])
    |do 2 (apply map_Forall_insert_2; [apply Qcle_refl|])];
    apply map_Forall_empty.
Defined.

(** ** What [update] does to the accumulator *)

Lemma update_person_eq og tg ht p person d :
  update_person og tg ht p person d
  = (t ← add_at (dist_trait d) (bool_decide (person ∈ ht)) p;
     g ← add_at (dist_gene d) (gene_count og tg (Some person)) p;
     Some (Dist g t)).
Proof.
  unfold update_person, gene_count. simpl.
  by repeat case_bool_decide.
Qed.

Lemma add_at_None {K} `{Countable K} (d : gmap K Qc) k p :
  add_at d k p = None ↔ d !! k = None.
Proof. unfold add_at. by destruct (d !! k). Qed.

Lemma add_at_Some {K} `{Countable K} (d d' : gmap K Qc) k p :
  add_at d k p = Some d' ↔ ∃ v, d !! k = Some v ∧ d' = <[k := (v + p)%Qc]> d.
Proof.
  unfold add_at. destruct (d !! k) as [v|]; simpl.
  - split; [intros [= <-]; eauto|]. by intros (v' & [= <-] & ->).
  - split; [done|]. by intros (v & ? & _).
Qed.

Lemma py_sum_total l : py_sum l = total l.
Proof.
  induction l as [|x l IH]; [done|]. rewrite py_sum_cons, IH. done.
Qed.

Lemma py_sum_insert {K} `{Countable K} (d : gmap K Qc) k v w :
  d !! k = Some v →
  py_sum (dict_values (<[k := w]> d))
  = (py_sum (dict_values d) - v + w)%Qc.
Proof.
  intros Hv. unfold dict_values. rewrite !py_sum_total.
  rewrite <-(insert_delete_eq d k w).
  rewrite (total_Permutation _ _
    (fmap_Permutation snd _ _
       (map_to_list_insert (delete k d) k w (lookup_delete_eq d k)))).
  rewrite <-(total_Permutation _ _
    (fmap_Permutation snd _ _ (map_to_list_delete d k v Hv))).
  unfold total. simpl. ring.
Qed.

Lemma update_person_None og tg ht p person d :
  update_person og tg ht p person d = None
  ↔ dist_trait d !! bool_decide (person ∈ ht) = None
    ∨ dist_gene d !! gene_count og tg (Some person) = None.
Proof.
  rewrite update_person_eq.
  destruct (add_at (dist_trait d) _ p) as [t|] eqn:Ht; simpl.
  - destruct (add_at (dist_gene d) _ p) as [g|] eqn:Hg; simpl.
    + apply add_at_Some in Ht as (v & Hv & _).
      apply add_at_Some in Hg as (w & Hw & _).
      split; [done|]. intros [?|?]; congruence.
    + apply add_at_None in Hg. split; [by right|done].
  - apply add_at_None in Ht. split; [by left|done].
Qed.

(** X12. [update] fails, with Python's [KeyError], exactly when some
    person's accumulator lacks the trait bucket or the gene bucket the
    hypothesis puts the person in; accumulators with all five buckets are
    always updated. *)
Theorem update_fails_iff_missing_bucket probabilities og tg ht p :
  update probabilities og tg ht p = None
  ↔ ∃ person d,
      probabilities !! person = Some d
      ∧ (dist_trait d !! bool_decide (person ∈ ht) = None
         ∨ dist_gene d !! gene_count og tg (Some person) = None).
Proof.
  unfold update. rewrite for_each_key_None.
  by setoid_rewrite update_person_None.
Qed.

Lemma update_person_Some og tg ht p person d d' :
  update_person og tg ht p person d = Some d' →
  (∀ g, dist_gene d' !! g
        = (λ v, if decide (g = gene_count og tg (Some person))
                then v + p else v)%Qc <$> dist_gene d !! g)
  ∧ (∀ t, dist_trait d' !! t
          = (λ v, if decide (t = bool_decide (person ∈ ht))
                  then v + p else v)%Qc <$> dist_trait d !! t)
  ∧ py_sum (dict_values (dist_gene d'))
    = (py_sum (dict_values (dist_gene d)) + p)%Qc
  ∧ py_sum (dict_values (dist_trait d'))
    = (py_sum (dict_values (dist_trait d)) + p)%Qc.
Proof.
  rewrite update_person_eq. intros Hu.
  destruct (add_at (dist_trait d) _ p) as [t|] eqn:Ht; [|done].
  destruct (add_at (dist_gene d) _ p) as [g|] eqn:Hg; [|done].
  simpl in Hu. injection Hu as <-. simpl.
  apply add_at_Some in Ht as (v & Hv & ->).
  apply add_at_Some in Hg as (w & Hw & ->).
  split; [|split; [|split]].
  - intros k. rewrite lookup_insert.
    destruct (decide (k = gene_count og tg (Some person))) as [->|Hk].
    + rewrite decide_True by done. by rewrite Hw.
    + rewrite decide_False by done. by destruct (dist_gene d !! k).
  - intros k. rewrite lookup_insert.
    destruct (decide (k = bool_decide (person ∈ ht))) as [->|Hk].
    + rewrite decide_True by done. by rewrite Hv.
    + rewrite decide_False by done. by destruct (dist_trait d !! k).
  - rewrite (py_sum_insert _ _ w) by done. ring.
  - rewrite (py_sum_insert _ _ v) by done. ring.
Qed.

(** X13. When [update] succeeds it keeps the persons, and for every person
    it adds [p] to exactly one gene bucket (the person's gene count under
    the hypothesis) and to exactly one trait bucket, leaving the others
    as they are: both the gene total and the trait total grow by [p]. *)
Theorem update_adds_p_to_one_bucket_each probabilities og tg ht p updated :
  update probabilities og tg ht p = Some updated →
  dom updated = dom probabilities
  ∧ ∀ person d, probabilities !! person = Some d →
      ∃ d', updated !! person = Some d'
        ∧ (∀ g, dist_gene d' !! g
                = (λ v, if decide (g = gene_count og tg (Some person))
                        then v + p else v)%Qc <$> dist_gene d !! g)
        ∧ (∀ t, dist_trait d' !! t
                = (λ v, if decide (t = bool_decide (person ∈ ht))
                        then v + p else v)%Qc <$> dist_trait d !! t)
        ∧ py_sum (dict_values (dist_gene d'))
          = (py_sum (dict_values (dist_gene d)) + p)%Qc
        ∧ py_sum (dict_values (dist_trait d'))
          = (py_sum (dict_values (dist_trait d)) + p)%Qc.
Proof.
  intros Hu. apply for_each_key_Some in Hu as [Hall Hl]. split.
  - apply set_eq. intros person. rewrite !elem_of_dom, Hl.
    destruct (probabilities !! person) as [d|] eqn:Hd; simpl.
    + split; [by eexists|]. intros _. by apply Hall.
    + split; by intros [? ?].
  - intros person d Hd. destruct (Hall person d Hd) as [d' Hd'].
    exists d'. rewrite Hl, Hd. simpl. split; [done|].
    by apply update_person_Some.
Qed.

Lemma update_adds_p_to_one_bucket_each_witness :
  ∃ updated,
    update sample_totals {["A"%string]} ∅ ∅ (pct 2) = Some updated
    ∧ dom updated = dom sample_totals
    ∧ ∀ person d, sample_totals !! person = Some d →
        ∃ d', updated !! person = Some d'
          ∧ (∀ g, dist_gene d' !! g
                  = (λ v, if decide (g = gene_count {["A"%string]} ∅
                                           (Some person))
                          then v + pct 2 else v)%Qc <$> dist_gene d !! g)
          ∧ (∀ t, dist_trait d' !! t
                  = (λ v, if decide (t = bool_decide
                                           (person ∈ (∅ : gset string)))
                          then v + pct 2 else v)%Qc <$> dist_trait d !! t)
          ∧ py_sum (dict_values (dist_gene d'))
            = (py_sum (dict_values (dist_gene d)) + pct 2)%Qc
          ∧ py_sum (dict_values (dist_trait d'))
            = (py_sum (dict_values (dist_trait d)) + pct 2)%Qc.
Proof.
  destruct (update sample_totals {["A"%string]} ∅ ∅ (pct 2))
    as [updated|] eqn:Hu; [|by vm_compute in Hu].
  exists updated. split; [done|].
  exact (update_adds_p_to_one_bucket_each sample_totals
           {["A"%string]} ∅ ∅ (pct 2) updated Hu).
Defined.

(** ** The order of updates, and normalizing twice *)

Lemma for_each_key_ext {V} (f f' : string → V → option V) d :
  (∀ k v, f k v = f' k v) → for_each_key f d = for_each_key f' d.
Proof.
  intros H. unfold for_each_key. apply foldl_pointwise.
  intros [cur|] key; [|done]. unfold for_each_key_step. simpl.
  destruct (cur !! key); [|done]. simpl. by rewrite H.
Qed.

Lemma for_each_key_compose {V} (f f' : string → V → option V) d :
  (d1 ← for_each_key f d; for_each_key f' d1)
  = for_each_key (λ k v, v1 ← f k v; f' k v1) d.
Proof.
  destruct (for_each_key f d) as [d1|] eqn:H1; simpl.
  - apply for_each_key_Some in H1 as [Ha Hl].
    destruct (for_each_key f' d1) as [d2|] eqn:H2.
    + apply for_each_key_Some in H2 as [Ha' Hl'].
      destruct (for_each_key_succeeds (λ k v, v1 ← f k v; f' k v1) d)
        as (d2' & -> & Hl2).
      { intros k v Hv. destruct (Ha k v Hv) as [v1 Hv1]. rewrite Hv1.
        simpl. apply (Ha' k). by rewrite Hl, Hv. }
      f_equal. apply map_eq. intros k. rewrite Hl', Hl, Hl2.
      by destruct (d !! k).
    + apply for_each_key_None in H2 as (k & v1 & Hv1 & Hf').
      symmetry. apply for_each_key_None.
      rewrite Hl in Hv1. destruct (d !! k) as [v|] eqn:Hv; [|done].
      exists k, v. split; [done|]. simpl in Hv1. by rewrite Hv1.
  - apply for_each_key_None in H1 as (k & v & Hv & Hf).
    symmetry. apply for_each_key_None. exists k, v. by rewrite Hf.
Qed.

Lemma add_at_comm {K} `{Countable K} (d : gmap K Qc) k1 p1 k2 p2 :
  (d1 ← add_at d k1 p1; add_at d1 k2 p2)
  = (d2 ← add_at d k2 p2; add_at d2 k1 p1).
Proof.
  unfold add_at. destruct (decide (k1 = k2)) as [->|Hne].
  - destruct (d !! k2) as [v|]; simpl; [|done].
    rewrite !lookup_insert_eq. simpl. rewrite !insert_insert_eq.
    do 2 f_equal. ring.
  - destruct (d !! k1) as [v1|] eqn:H1, (d !! k2) as [v2|] eqn:H2; simpl;
      rewrite ?lookup_insert_ne, ?H1, ?H2 by done; simpl; [|done..].
    f_equal. by apply insert_insert_ne.
Qed.

Lemma update_person_twice og1 tg1 ht1 p1 og2 tg2 ht2 p2 person d :
  (d1 ← update_person og1 tg1 ht1 p1 person d;
   update_person og2 tg2 ht2 p2 person d1)
  = (t ← (t ← add_at (dist_trait d) (bool_decide (person ∈ ht1)) p1;
          add_at t (bool_decide (person ∈ ht2)) p2);
     g ← (g ← add_at (dist_gene d) (gene_count og1 tg1 (Some person)) p1;
          add_at g (gene_count og2 tg2 (Some person)) p2);
     Some (Dist g t)).
Proof.
  rewrite (update_person_eq og1).
  destruct (add_at (dist_trait d) _ p1) as [t|]; simpl; [|done].
  destruct (add_at (dist_gene d) _ p1) as [g|]; simpl.
  - by rewrite update_person_eq.
  - by destruct (add_at t _ p2).
Qed.

(** X14. Two updates can be made in either order: the accumulator after
    adding the joint probabilities of two hypotheses is the same, and one
    order fails exactly when the other does. *)
Theorem updates_commute probabilities og1 tg1 ht1 p1 og2 tg2 ht2 p2 :
  (updated ← update probabilities og1 tg1 ht1 p1;
   update updated og2 tg2 ht2 p2)
  = (updated ← update probabilities og2 tg2 ht2 p2;
     update updated og1 tg1 ht1 p1).
Proof.
  unfold update. rewrite !for_each_key_compose.
  apply for_each_key_ext. intros person d.
  rewrite !update_person_twice.
  by rewrite (add_at_comm (dist_trait d)), (add_at_comm (dist_gene d)).
Qed.

Lemma normalize_person_Some person d d' :
  normalize_person person d = Some d' ↔
  py_sum (dict_values (dist_gene d)) ≠ 0%Qc
  ∧ py_sum (dict_values (dist_trait d)) ≠ 0%Qc
  ∧ d' = Dist (scale_values (1 / py_sum (dict_values (dist_gene d)))%Qc
                 (dist_gene d))
              (scale_values (1 / py_sum (dict_values (dist_trait d)))%Qc
                 (dist_trait d)).
Proof.
  unfold normalize_person, py_div.
  destruct (decide (py_sum (dict_values (dist_gene d)) = 0%Qc));
    simpl; [by split; [|intros [? _]]|].
  destruct (decide (py_sum (dict_values (dist_trait d)) = 0%Qc));
    simpl; [by split; [|intros (_ & ? & _)]|].
  split; [by intros [= <-]|by intros (_ & _ & ->)].
Qed.

Lemma scale_values_one {K} `{Countable K} (d : gmap K Qc) :
  scale_values (1 / 1)%Qc d = d.
Proof.
  apply map_eq. intros k. unfold scale_values. rewrite lookup_fmap.
  destruct (d !! k) as [v|]; [|done]. simpl. f_equal.
  replace (1 / 1)%Qc with 1%Qc by qc_closed. ring.
Qed.

(** X15. Normalizing is idempotent: whatever [normalize] returns, it
    returns unchanged when it is normalized again. *)
Theorem normalize_idempotent probabilities normalized :
  normalize probabilities = Some normalized →
  normalize normalized = Some normalized.
Proof.
  unfold normalize. intros [Ha Hl]%for_each_key_Some.
  assert (Hfix : ∀ k d', normalized !! k = Some d' →
            normalize_person k d' = Some d').
  { intros k d' Hd'. rewrite Hl in Hd'.
    destruct (probabilities !! k) as [d|]; [|done]. simpl in Hd'.
    apply normalize_person_Some in Hd' as (Hg & Ht & ->).
    apply normalize_person_Some. simpl.
    rewrite !scale_values_sum by done.
    split; [done|]. split; [done|]. by rewrite !scale_values_one. }
  destruct (for_each_key_succeeds normalize_person normalized)
    as (again & -> & Hl2).
  { intros k d' Hd'. rewrite (Hfix k d' Hd'). by eexists. }
  f_equal. apply map_eq. intros k. rewrite Hl2.
  destruct (normalized !! k) as [d'|] eqn:Hd'; [|done].
  simpl. by apply Hfix.
Qed.

Lemma normalize_idempotent_witness :
  ∃ normalized,
    normalize sample_totals = Some normalized
    ∧ normalize normalized = Some normalized.
Proof.
  destruct (normalize sample_totals) as [normalized|] eqn:Hn;
    [|by vm_compute in Hn].
  exists normalized. split; [done|].
  exact (normalize_idempotent sample_totals normalized Hn).
Defined.

(** ** [main] computes the conditional distributions *)

Lemma accumulator_lookup people Gf Tf person :
  accumulator people Gf Tf !! person
  = (λ _, buckets (Gf person) (Tf person)) <$> people !! person.
Proof.
  unfold accumulator. rewrite map_lookup_imap.
  by destruct (people !! person).
Qed.

Lemma accumulator_ext people Gf Tf Gf' Tf' :
  (∀ person g, Gf person g = Gf' person g) →
  (∀ person t, Tf person t = Tf' person t) →
  accumulator people Gf Tf = accumulator people Gf' Tf'.
Proof.
  intros HG HT. apply map_eq. intros person. rewrite !accumulator_lookup.
  destruct (people !! person); [|done]. simpl. unfold buckets.
  by rewrite !HG, !HT.
Qed.

Lemma initial_probabilities_accumulator people :
  initial_probabilities people
  = accumulator people (λ _ _, 0%Qc) (λ _ _, 0%Qc).
Proof.
  apply map_eq. intros person. unfold initial_probabilities.
  rewrite lookup_fmap, accumulator_lookup. done.
Qed.

Lemma update_person_buckets og tg ht p person Gp Tp :
  update_person og tg ht p person (buckets Gp Tp)
  = Some (buckets
      (λ g, Gp g + if decide (gene_count og tg (Some person) = g)
                   then p else 0)%Qc
      (λ t, Tp t + if decide (bool_decide (person ∈ ht) = t)
                   then p else 0)%Qc).
Proof.
  rewrite update_person_eq.
  pose proof (gene_count_lt og tg (Some person)) as Hc.
  destruct (gene_count og tg (Some person)) as [|[|[|c]]]; [| | |lia];
    destruct (bool_decide (person ∈ ht));
    unfold buckets; simpl; rewrite !Qcplus_0_r; reflexivity.
Qed.

Lemma update_accumulator people Gf Tf og tg ht p :
  update (accumulator people Gf Tf) og tg ht p
  = Some (accumulator people
      (λ person g,
         Gf person g + if decide (gene_count og tg (Some person) = g)
                       then p else 0)%Qc
      (λ person t,
         Tf person t + if decide (bool_decide (person ∈ ht) = t)
                       then p else 0)%Qc).
Proof.
  destruct (for_each_key_succeeds (update_person og tg ht p)
              (accumulator people Gf Tf)) as (d' & Hd & Hl).
  { intros person d. rewrite accumulator_lookup.
    destruct (people !! person); [|done]. intros [= <-].
    rewrite update_person_buckets. by eexists. }
  unfold update. rewrite Hd. f_equal. apply map_eq. intros person.
  rewrite Hl, !accumulator_lookup.
  destruct (people !! person); [|done]. simpl.
  apply update_person_buckets.
Qed.

Lemma visit_accumulator people Gf Tf h :
  visit PROBS people (Some (accumulator people Gf Tf)) h
  = Some (accumulator people
      (λ person g,
         Gf person g + if decide (gene_count h.1.2 h.2 (Some person) = g)
                       then joint_value people h.1.2 h.2 h.1.1 else 0)%Qc
      (λ person t,
         Tf person t + if decide (bool_decide (person ∈ h.1.1) = t)
                       then joint_value people h.1.2 h.2 h.1.1 else 0)%Qc).
Proof.
  unfold visit. simpl. rewrite joint_probability_value. simpl.
  apply update_accumulator.
Qed.

Lemma visit_None P people l : foldl (visit P people) None l = None.
Proof. induction l; [done|by simpl]. Qed.

Lemma visit_fold people l :
  ∀ Gf Tf,
  foldl (visit PROBS people) (Some (accumulator people Gf Tf)) l
  = Some (accumulator people
      (λ person g,
         Gf person g
         + total (map (λ h,
             if decide (gene_count h.1.2 h.2 (Some person) = g)
             then joint_value people h.1.2 h.2 h.1.1 else 0) l))%Qc
      (λ person t,
         Tf person t
         + total (map (λ h,
             if decide (bool_decide (person ∈ h.1.1) = t)
             then joint_value people h.1.2 h.2 h.1.1 else 0) l))%Qc).
Proof.
  induction l as [|h l IH]; intros Gf Tf.
  - simpl. f_equal. apply accumulator_ext; intros; unfold total; simpl; ring.
  - cbn [foldl]. rewrite visit_accumulator, IH. f_equal.
    apply accumulator_ext; intros; unfold total; simpl; ring.
Qed.

Lemma fails_evidence_total people ht :
  ∃ b, fails_evidence people (dom people) ht = Some b
       ∧ (b = true ↔ ∃ person value t,
            people !! person = Some value
            ∧ person_trait value = Some t
            ∧ t ≠ bool_decide (person ∈ ht)).
Proof.
  unfold fails_evidence.
  destruct (py_any_spec (violates people ht) (elements (dom people)))
    as (b & Hb & Hiff).
  { apply Forall_forall. intros person Hin%elem_of_elements%elem_of_dom.
    destruct Hin as [value Hv]. unfold violates. rewrite Hv. by eexists. }
  exists b. split; [done|]. rewrite Hiff, Exists_exists. split.
  - intros (person & _ & Hv%violates_true). by exists person.
  - intros (person & value & t & Hp & Hv). exists person. split.
    + apply elem_of_elements, elem_of_dom. eauto.
    + apply violates_true. eauto.
Qed.

Lemma filter_list_bind {A B} (P : B → Prop) `{∀ x, Decision (P x)}
    (f : A → list B) (l : list A) :
  filter P (l ≫= f) = l ≫= (λ x, filter P (f x)).
Proof.
  induction l as [|x l IH]; [done|].
  change ((x :: l) ≫= f) with (f x ++ (l ≫= f)).
  rewrite filter_app, IH. done.
Qed.

Lemma filter_all {A} (P : A → Prop) `{∀ x, Decision (P x)} (l : list A) :
  (∀ x, x ∈ l → P x) → filter P l = l.
Proof.
  induction l as [|x l IH]; intros Hl; [done|].
  rewrite filter_cons_True by (apply Hl; left).
  rewrite IH; [done|]. intros y Hy. apply Hl. by right.
Qed.

Lemma filter_none {A} (P : A → Prop) `{∀ x, Decision (P x)} (l : list A) :
  (∀ x, x ∈ l → ¬ P x) → filter P l = [].
Proof.
  induction l as [|x l IH]; intros Hl; [done|].
  rewrite filter_cons_False by (apply Hl; left).
  apply IH. intros y Hy. apply Hl. by right.
Qed.

(** The loops of [main], evidence test included, are one pass over the
    kept hypotheses. *)
Lemma main_loop_kept people acc :
  foldl (trait_loop_body PROBS people (dom people)) acc
    (powerset (dom people))
  = foldl (visit PROBS people) acc (kept people).
Proof.
  unfold kept, enumeration. rewrite filter_list_bind, foldl_bind.
  apply foldl_pointwise. intros acc1 ht.
  set (inner := one_gene ← powerset (dom people);
                two_genes ← powerset (dom people ∖ one_gene);
                [(ht, one_gene, two_genes)]).
  assert (Hin : ∀ h, h ∈ inner → h.1.1 = ht).
  { intros h (og & (tg & ->%list_elem_of_singleton & _)%list_elem_of_bind
                 & _)%list_elem_of_bind. done. }
  unfold trait_loop_body.
  destruct (fails_evidence_total people ht) as (b & Hb & _). rewrite Hb.
  destruct b.
  - rewrite filter_none.
    + by destruct acc1.
    + intros h Hh. rewrite (Hin h Hh), Hb. done.
  - rewrite filter_all.
    + destruct acc1 as [probabilities|]; simpl; [|by rewrite visit_None].
      rewrite gene_loop_visits_pairs. unfold inner.
      rewrite !foldl_bind. apply foldl_pointwise. intros acc2 og.
      rewrite !foldl_bind. by apply foldl_pointwise.
    + intros h Hh. by rewrite (Hin h Hh).
Qed.

Lemma kept_nonempty people : ∃ h, h ∈ kept people.
Proof.
  set (ht := dom (filter (λ kv : string * person_info,
                            person_trait kv.2 = Some true) people)).
  exists (ht, ∅, ∅). unfold kept. apply list_elem_of_filter. split.
  - simpl. destruct (fails_evidence_total people ht) as (b & Hb & Hiff).
    rewrite Hb. f_equal. apply not_true_is_false. intros Htrue.
    apply Hiff in Htrue as (person & value & t & Hp & Ht & Hne).
    apply Hne. symmetry. unfold ht. destruct t.
    + apply bool_decide_eq_true_2, elem_of_dom. exists value.
      by apply map_lookup_filter_Some.
    + apply bool_decide_eq_false_2. intros [v Hv]%elem_of_dom.
      apply map_lookup_filter_Some in Hv as [Hv Htv]. simpl in Htv.
      congruence.
  - apply elem_of_enumeration. simpl. split; [|set_solver].
    unfold ht. apply dom_filter_subseteq.
Qed.

Lemma total_pos l :
  l ≠ [] → (∀ x, x ∈ l → (0 < x)%Qc) → (0 < total l)%Qc.
Proof.
  destruct l as [|x l]; [done|]. intros _ Hl. unfold total. simpl.
  apply Qcplus_pos_nonneg; [apply Hl; left|].
  assert (Hl' : ∀ y, y ∈ l → (0 < y)%Qc) by (intros y Hy; apply Hl; by right).
  clear Hl. induction l as [|y l IH]; simpl; [done|].
  apply Qclt_le_weak, Qcplus_pos_nonneg; [apply Hl'; left|].
  apply IH. intros z Hz. apply Hl'. by right.
Qed.

Lemma mass_pos people : (0 < mass people)%Qc.
Proof.
  unfold mass. apply total_pos.
  - destruct (kept_nonempty people) as [h Hh].
    destruct (kept people); [by apply elem_of_nil in Hh|done].
  - intros x (h & -> & _)%list_elem_of_fmap. apply joint_value_bounds.
Qed.

Lemma gene_mass_total people person :
  (gene_mass people person 0 + gene_mass people person 1
   + gene_mass people person 2 = mass people)%Qc.
Proof.
  unfold gene_mass, mass, total.
  induction (kept people) as [|h l IH]; simpl; [ring|].
  rewrite <-IH.
  pose proof (gene_count_lt h.1.2 h.2 (Some person)) as Hc.
  destruct (gene_count h.1.2 h.2 (Some person)) as [|[|[|c]]];
    [simpl; ring..|lia].
Qed.

Lemma trait_mass_total people person :
  (trait_mass people person true + trait_mass people person false
   = mass people)%Qc.
Proof.
  unfold trait_mass, mass, total.
  induction (kept people) as [|h l IH]; simpl; [ring|].
  rewrite <-IH. destruct (bool_decide (person ∈ h.1.1)); simpl; ring.
Qed.

Lemma normalize_person_buckets person Gp Tp m :
  m ≠ 0%Qc →
  (Gp 0%nat + Gp 1%nat + Gp 2%nat = m)%Qc →
  (Tp true + Tp false = m)%Qc →
  normalize_person person (buckets Gp Tp)
  = Some (buckets (λ g, Gp g / m)%Qc (λ t, Tp t / m)%Qc).
Proof.
  intros Hm HG HT. apply normalize_person_Some.
  assert (Hsg : py_sum (dict_values (dist_gene (buckets Gp Tp))) = m).
  { replace (dict_values (dist_gene (buckets Gp Tp)))
      with [Gp 2%nat; Gp 1%nat; Gp 0%nat] by (vm_compute; reflexivity).
    rewrite <-HG. unfold py_sum. simpl. ring. }
  assert (Hst : py_sum (dict_values (dist_trait (buckets Gp Tp))) = m).
  { rewrite <-HT. unfold py_sum.
    let l := eval vm_compute in (dict_values (dist_trait (buckets Gp Tp))) in
    replace (dict_values (dist_trait (buckets Gp Tp))) with l
      by (vm_compute; reflexivity).
    simpl. ring. }
  rewrite Hsg, Hst. split; [done|]. split; [done|].
  assert (Hdiv : ∀ x, (x / m = x * (1 / m))%Qc)
    by (intros; unfold Qcdiv; ring).
  unfold buckets.
  rewrite (Hdiv (Gp 0%nat)), (Hdiv (Gp 1%nat)), (Hdiv (Gp 2%nat)),
    (Hdiv (Tp true)), (Hdiv (Tp false)).
  reflexivity.
Qed.

Lemma normalize_accumulator people Gf Tf m :
  m ≠ 0%Qc →
  (∀ person, Gf person 0%nat + Gf person 1%nat + Gf person 2%nat = m)%Qc →
  (∀ person, Tf person true + Tf person false = m)%Qc →
  normalize (accumulator people Gf Tf)
  = Some (accumulator people (λ person g, Gf person g / m)%Qc
            (λ person t, Tf person t / m)%Qc).
Proof.
  intros Hm HG HT.
  destruct (for_each_key_succeeds normalize_person
              (accumulator people Gf Tf)) as (d' & Hd & Hl).
  { intros person d. rewrite accumulator_lookup.
    destruct (people !! person); [|done]. intros [= <-].
    rewrite (normalize_person_buckets _ _ _ m) by done. by eexists. }
  unfold normalize. rewrite Hd. f_equal. apply map_eq. intros person.
  rewrite Hl, !accumulator_lookup.
  destruct (people !! person); [|done]. simpl.
  by apply normalize_person_buckets.
Qed.

(** What [main] returns, for every pedigree. *)
Lemma main_value people :
  main PROBS people
  = Some (accumulator people
      (λ person g, gene_mass people person g / mass people)%Qc
      (λ person t, trait_mass people person t / mass people)%Qc).
Proof.
  unfold main. cbv zeta.
  rewrite main_loop_kept, initial_probabilities_accumulator, visit_fold.
  simpl.
  rewrite (normalize_accumulator _ _ _ (mass people)).
  - f_equal. apply accumulator_ext; intros; unfold gene_mass, trait_mass;
      by rewrite Qcplus_0_l.
  - apply not_eq_sym, Qclt_not_eq, mass_pos.
  - intros person. rewrite !Qcplus_0_l. apply gene_mass_total.
  - intros person. rewrite !Qcplus_0_l. apply trait_mass_total.
Qed.

Lemma dom_accumulator people Gf Tf :
  dom (accumulator people Gf Tf) = dom people.
Proof.
  apply set_eq. intros person. rewrite !elem_of_dom, accumulator_lookup.
  by rewrite fmap_is_Some.
Qed.

Lemma buckets_gene_lookup Gp Tp g :
  (g < 3)%nat → dist_gene (buckets Gp Tp) !! g = Some (Gp g).
Proof. intros Hg. destruct g as [|[|[|g]]]; [done..|lia]. Qed.

Lemma buckets_trait_lookup Gp Tp t :
  dist_trait (buckets Gp Tp) !! t = Some (Tp t).
Proof. by destruct t. Qed.

(** X16. For every pedigree [main] returns, for each person, the
    conditional distribution given the evidence: the value for gene count
    [g] is the joint probability of the hypotheses that pass the evidence
    test and give the person [g] copies, divided by the joint probability
    of all hypotheses that pass the test; likewise for the trait. *)
Theorem main_computes_conditional_distributions people :
  ∃ result,
    main PROBS people = Some result
    ∧ dom result = dom people
    ∧ (∀ og tg ht, joint_probability PROBS people og tg ht
                   = Some (joint_value people og tg ht))
    ∧ ∀ person, person ∈ dom people →
        ∃ d, result !! person = Some d
          ∧ (∀ g, (g < 3)%nat →
               dist_gene d !! g
               = Some (gene_mass people person g / mass people)%Qc)
          ∧ (∀ t, dist_trait d !! t
                  = Some (trait_mass people person t / mass people)%Qc).
Proof.
  eexists. split; [apply main_value|].
  split; [apply dom_accumulator|].
  split; [apply joint_probability_value|].
  intros person [value Hv]%elem_of_dom. eexists.
  rewrite accumulator_lookup, Hv. split; [done|]. split.
  - intros g Hg. by rewrite buckets_gene_lookup.
  - intros t. by rewrite buckets_trait_lookup.
Qed.

Lemma total_nonneg l : (∀ x, x ∈ l → (0 ≤ x)%Qc) → (0 ≤ total l)%Qc.
Proof.
  unfold total. induction l as [|x l IH]; intros Hl; simpl; [done|].
  apply Qcplus_nonneg_nonneg; [apply Hl; left|].
  apply IH. intros y Hy. apply Hl. by right.
Qed.

Lemma gene_mass_nonneg people person g : (0 ≤ gene_mass people person g)%Qc.
Proof.
  unfold gene_mass. apply total_nonneg.
  intros x (h & -> & _)%list_elem_of_fmap.
  destruct (decide _); [apply Qclt_le_weak, joint_value_bounds|done].
Qed.

Lemma trait_mass_nonneg people person t :
  (0 ≤ trait_mass people person t)%Qc.
Proof.
  unfold trait_mass. apply total_nonneg.
  intros x (h & -> & _)%list_elem_of_fmap.
  destruct (decide _); [apply Qclt_le_weak, joint_value_bounds|done].
Qed.

Lemma share_bounds (a rest m : Qc) :
  (0 ≤ a)%Qc → (0 ≤ rest)%Qc → (a + rest = m)%Qc → (0 < m)%Qc →
  (0 ≤ a / m)%Qc ∧ (a / m ≤ 1)%Qc.
Proof.
  intros Ha Hr Hm Hpos. pose proof (Qcinv_pos m Hpos) as Hinv.
  unfold Qcdiv. split.
  - rewrite <-(Qcmult_0_l (/ m)). by apply Qcmult_le_mono_pos_r.
  - rewrite <-(Qcmult_inv_r m) by by apply not_eq_sym, Qclt_not_eq.
    apply Qcmult_le_mono_pos_r; [done|]. rewrite <-Hm.
    rewrite <-(Qcplus_0_r a) at 1. by apply Qcplus_le_mono_l.
Qed.

Lemma py_sum_buckets Gp Tp :
  py_sum (dict_values (dist_gene (buckets Gp Tp)))
  = (Gp 0%nat + Gp 1%nat + Gp 2%nat)%Qc
  ∧ py_sum (dict_values (dist_trait (buckets Gp Tp)))
    = (Tp true + Tp false)%Qc.
Proof.
  split.
  - replace (dict_values (dist_gene (buckets Gp Tp)))
      with [Gp 2%nat; Gp 1%nat; Gp 0%nat] by (vm_compute; reflexivity).
    unfold py_sum. simpl. ring.
  - let l := eval vm_compute in (dict_values (dist_trait (buckets Gp Tp))) in
    replace (dict_values (dist_trait (buckets Gp Tp))) with l
      by (vm_compute; reflexivity).
    unfold py_sum. simpl. ring.
Qed.

(** X17. [main] fails on no pedigree, cyclic or not, with or without
    evidence: it returns a distribution for every person and for no one
    else, each gene distribution and each trait distribution adds up to 1,
    and every value lies between 0 and 1. *)
Theorem main_returns_distributions people :
  ∃ result,
    main PROBS people = Some result
    ∧ dom result = dom people
    ∧ ∀ person d, result !! person = Some d →
        py_sum (dict_values (dist_gene d)) = 1%Qc
        ∧ py_sum (dict_values (dist_trait d)) = 1%Qc
        ∧ (∀ g v, dist_gene d !! g = Some v → (0 ≤ v)%Qc ∧ (v ≤ 1)%Qc)
        ∧ (∀ t v, dist_trait d !! t = Some v → (0 ≤ v)%Qc ∧ (v ≤ 1)%Qc).
Proof.
  eexists. split; [apply main_value|].
  split; [apply dom_accumulator|].
  intros person d. rewrite accumulator_lookup.
  destruct (people !! person) as [value|]; [|done]. intros [= <-].
  pose proof (mass_pos people) as Hpos.
  assert (Hne : mass people ≠ 0%Qc) by by apply not_eq_sym, Qclt_not_eq.
  destruct (py_sum_buckets
              (λ g, gene_mass people person g / mass people)%Qc
              (λ t, trait_mass people person t / mass people)%Qc)
    as [-> ->].
  pose proof (gene_mass_total people person) as HG.
  pose proof (trait_mass_total people person) as HT.
  pose proof (gene_mass_nonneg people person) as HGn.
  pose proof (trait_mass_nonneg people person) as HTn.
  split.
  { transitivity ((gene_mass people person 0 + gene_mass people person 1
                   + gene_mass people person 2) / mass people)%Qc;
      [by field|rewrite HG; by field]. }
  split.
  { transitivity ((trait_mass people person true
                   + trait_mass people person false) / mass people)%Qc;
      [by field|rewrite HT; by field]. }
  split.
  - intros g v Hv. destruct g as [|[|[|g]]].
    4:{ unfold buckets in Hv. simpl in Hv.
        rewrite !lookup_insert_ne, lookup_singleton_ne in Hv by done.
        done. }
    all: rewrite buckets_gene_lookup in Hv by lia; injection Hv as <-.
    + apply (share_bounds _ (gene_mass people person 1
                             + gene_mass people person 2)%Qc);
        [done|by apply Qcplus_nonneg_nonneg|rewrite <-HG; ring|done].
    + apply (share_bounds _ (gene_mass people person 0
                             + gene_mass people person 2)%Qc);
        [done|by apply Qcplus_nonneg_nonneg|rewrite <-HG; ring|done].
    + apply (share_bounds _ (gene_mass people person 0
                             + gene_mass people person 1)%Qc);
        [done|by apply Qcplus_nonneg_nonneg|rewrite <-HG; ring|done].
  - intros t v Hv. rewrite buckets_trait_lookup in Hv. injection Hv as <-.
    destruct t.
    + by apply (share_bounds _ (trait_mass people person false)).
    + apply (share_bounds _ (trait_mass people person true));
        [done..|rewrite <-HT; ring|done].
Qed.

Lemma kept_agrees_with_evidence people person value t h :
  people !! person = Some value → person_trait value = Some t →
  h ∈ kept people → bool_decide (person ∈ h.1.1) = t.
Proof.
  intros Hp Ht [Hf _]%list_elem_of_filter.
  destruct (fails_evidence_total people h.1.1) as (b & Hb & Hiff).
  destruct (decide (bool_decide (person ∈ h.1.1) = t)) as [|Hne]; [done|].
  assert (b = true) as -> by (apply Hiff; exists person, value, t; eauto).
  congruence.
Qed.

Lemma total_zero {A} (F : A → Qc) l :
  (∀ x, x ∈ l → F x = 0%Qc) → total (map F l) = 0%Qc.
Proof.
  intros H. unfold total. induction l as [|x l IH]; [done|]. simpl.
  rewrite (H x) by left. rewrite IH; [ring|].
  intros y Hy. apply H. by right.
Qed.

(** X18. A person whose trait is recorded gets the recorded value back
    with certainty: [main] returns 1 for the recorded trait value and 0 for
    the other, whatever the rest of the pedigree is. *)
Theorem main_reproduces_evidence people person value t :
  people !! person = Some value →
  person_trait value = Some t →
  ∃ result d,
    main PROBS people = Some result
    ∧ result !! person = Some d
    ∧ dist_trait d !! t = Some 1%Qc
    ∧ dist_trait d !! negb t = Some 0%Qc.
Proof.
  intros Hp Ht. eexists _, _. split; [apply main_value|].
  rewrite accumulator_lookup, Hp. split; [done|].
  rewrite !buckets_trait_lookup.
  assert (H0 : trait_mass people person (negb t) = 0%Qc).
  { unfold trait_mass. apply total_zero. intros h Hh.
    rewrite (kept_agrees_with_evidence people person value t h) by done.
    rewrite decide_False; [done|]. by destruct t. }
  assert (H1 : trait_mass people person t = mass people).
  { pose proof (trait_mass_total people person) as HT.
    destruct t; simpl in H0; rewrite H0 in HT; rewrite <-HT; ring. }
  assert (Hne : mass people ≠ 0%Qc)
    by apply not_eq_sym, Qclt_not_eq, mass_pos.
  rewrite H0, H1. split; f_equal; by field.
Qed.

Lemma main_reproduces_evidence_witness :
  ∃ result d,
    main PROBS family = Some result
    ∧ result !! "James"%string = Some d
    ∧ dist_trait d !! true = Some 1%Qc
    ∧ dist_trait d !! negb true = Some 0%Qc.
Proof.
  apply (main_reproduces_evidence family "James"
           (PersonInfo "James" None None (Some true)) true).
  - vm_compute. reflexivity.
  - reflexivity.
Defined.

Lemma kept_without_evidence people :
  map_Forall (λ _ value, person_trait value = None) people →
  kept people = enumeration (dom people).
Proof.
  intros Hno. unfold kept. apply filter_all. intros h _.
  destruct (fails_evidence_total people h.1.1) as (b & Hb & Hiff).
  rewrite Hb. f_equal. apply not_true_is_false. intros Htrue.
  apply Hiff in Htrue as (person & value & t & Hp & Ht & _).
  rewrite (Hno person value Hp) in Ht. done.
Qed.

(** X19. With no trait evidence recorded and no cycle in the pedigree, the
    normalization in [main] divides by 1: the value returned for a person
    and a gene count or trait value is the plain sum of
    [joint_probability] over the hypotheses of the enumeration that give
    the person that value. *)
Theorem main_without_evidence_returns_marginals people rank :
  map_Forall (λ _ value, person_trait value = None) people →
  ranked rank people →
  ∃ result,
    main PROBS people = Some result
    ∧ ∀ person, person ∈ dom people →
        ∃ d, result !! person = Some d
          ∧ (∀ g, (g < 3)%nat →
               dist_gene d !! g
               = Some (total (map (λ h,
                   if decide (gene_count h.1.2 h.2 (Some person) = g)
                   then joint_value people h.1.2 h.2 h.1.1 else 0%Qc)
                   (enumeration (dom people)))))
          ∧ (∀ t, dist_trait d !! t
                  = Some (total (map (λ h,
                      if decide (bool_decide (person ∈ h.1.1) = t)
                      then joint_value people h.1.2 h.2 h.1.1 else 0%Qc)
                      (enumeration (dom people))))).
Proof.
  intros Hno Hrank. eexists. split; [apply main_value|].
  assert (Hm : mass people = 1%Qc).
  { unfold mass. rewrite (kept_without_evidence people Hno).
    pose proof (enumeration_sum_value people) as Hs.
    unfold enumeration_sum in Hs. rewrite enumeration_sum_loop in Hs.
    injection Hs as Hs. rewrite Qcplus_0_l in Hs. rewrite Hs.
    by apply (sum_hypotheses_joint_value rank (size people)). }
  assert (Hdiv : ∀ x : Qc, (x / 1 = x)%Qc) by (intros; by field).
  intros person [value Hv]%elem_of_dom. eexists.
  rewrite accumulator_lookup, Hv. split; [done|]. rewrite Hm. split.
  - intros g Hg. rewrite buckets_gene_lookup, Hdiv by done.
    unfold gene_mass. by rewrite (kept_without_evidence people Hno).
  - intros t. rewrite buckets_trait_lookup, Hdiv.
    unfold trait_mass. by rewrite (kept_without_evidence people Hno).
Qed.

Lemma main_without_evidence_returns_marginals_witness :
  ∃ result,
    main PROBS family_without_evidence = Some result
    ∧ ∀ person, person ∈ dom family_without_evidence →
        ∃ d, result !! person = Some d
          ∧ (∀ g, (g < 3)%nat →
               dist_gene d !! g
               = Some (total (map (λ h,
                   if decide (gene_count h.1.2 h.2 (Some person) = g)
                   then joint_value family_without_evidence
                          h.1.2 h.2 h.1.1
                   else 0%Qc)
                   (enumeration (dom family_without_evidence)))))
          ∧ (∀ t, dist_trait d !! t
                  = Some (total (map (λ h,
                      if decide (bool_decide (person ∈ h.1.1) = t)
                      then joint_value family_without_evidence
                             h.1.2 h.2 h.1.1
                      else 0%Qc)
                      (enumeration (dom family_without_evidence))))).
Proof.
  assert (map_Forall (λ _ v, person_trait v = None)
            family_without_evidence) as Hno.
  { unfold family_without_evidence.
    do 3 (apply map_Forall_insert_2; [reflexivity|]).
    apply map_Forall_empty. }
  assert (ranked family_rank family_without_evidence) as Hr.
  { unfold ranked, family_without_evidence.
    repeat (apply map_Forall_insert_2 || apply map_Forall_empty);
      simpl; try done; intros p [H|H]; try discriminate H;
      injection H as <-; vm_compute; lia. }
  exact (main_without_evidence_returns_marginals
           family_without_evidence family_rank Hno Hr).
Defined.

(** ** [load_data] *)

Lemma load_data_snoc rows r :
  load_data (rows ++ [r]) = <[row_name r := row_record r]> (load_data rows).
Proof. unfold load_data. by rewrite foldl_app. Qed.

Lemma load_data_lookup rows name :
  load_data rows !! name
  = row_record <$> last (filter (λ r, row_name r = name) rows).
Proof.
  induction rows as [|r rows IH] using rev_ind; [done|].
  rewrite load_data_snoc, filter_app.
  destruct (decide (row_name r = name)) as [<-|Hne].
  - rewrite lookup_insert_eq, filter_cons_True, filter_nil by done.
    by rewrite last_snoc.
  - rewrite lookup_insert_ne, filter_cons_False, filter_nil, app_nil_r
      by done.
    exact IH.
Qed.

(** X20. [load_data] keeps, for every name, the record of the last row
    with that name, and has no entry for a name no row carries: a later
    row replaces an earlier one as a whole. *)
Theorem load_data_keeps_the_last_row rows name :
  load_data rows !! name
  = row_record <$> last (filter (λ r, row_name r = name) rows).
Proof. apply load_data_lookup. Qed.

(** X21. In what [load_data] returns, every record sits under its own
    [name] field, the keys are the names that occur in the rows, a blank
    mother or father is [None] and never the empty string, and the trait
    is [True] for the text 1, [False] for the text 0 and unknown for any
    other text. *)
Theorem load_data_records rows :
  dom (load_data rows) = list_to_set (row_name <$> rows)
  ∧ ∀ name value, load_data rows !! name = Some value →
      person_name value = name
      ∧ person_mother value ≠ Some ""%string
      ∧ person_father value ≠ Some ""%string
      ∧ ∃ r, r ∈ rows ∧ row_name r = name
          ∧ (person_mother value = None ↔ row_mother r = ""%string)
          ∧ (person_father value = None ↔ row_father r = ""%string)
          ∧ (person_trait value = Some true ↔ row_trait r = "1"%string)
          ∧ (person_trait value = Some false ↔ row_trait r = "0"%string).
Proof.
  split.
  - induction rows as [|r rows IH] using rev_ind.
    + unfold load_data. simpl. by rewrite dom_empty_L.
    + rewrite load_data_snoc, dom_insert_L, IH, fmap_app, list_to_set_app_L.
      simpl. set_solver.
  - intros name value. rewrite load_data_lookup.
    destruct (last _) as [r|] eqn:Hlast; [|done]. intros [= <-].
    apply last_Some in Hlast as [l Hl].
    assert (Hr : r ∈ filter (λ r, row_name r = name) rows).
    { rewrite Hl. apply elem_of_app. right. by left. }
    apply list_elem_of_filter in Hr as [Hname Hr].
    assert (Hor : ∀ s, or_None s ≠ Some ""%string
                       ∧ (or_None s = None ↔ s = ""%string)).
    { intros s. unfold or_None. destruct (decide (s = ""%string)).
      - done.
      - split; [congruence|]. by split. }
    split; [done|]. split; [apply Hor|]. split; [apply Hor|].
    exists r. split; [done|]. split; [done|].
    split; [apply Hor|]. split; [apply Hor|].
    simpl. unfold trait_of_string.
    destruct (decide (row_trait r = "1"%string)) as [->|H1].
    + split; [done|]. split; [done|]. by intros [=].
    + destruct (decide (row_trait r = "0"%string)) as [->|H0].
      * split; [by split|done].
      * split; by split.
Qed.

(** X22. Whatever rows the file holds, also rows with one parent, with a
    parent nobody lists or with a cycle, inference on the loaded data does
    not fail: [main] returns a result with one entry for every name in the
    rows. *)
Theorem main_after_load_data rows :
  ∃ result,
    main PROBS (load_data rows) = Some result
    ∧ dom result = list_to_set (row_name <$> rows).
Proof.
  eexists. split; [apply main_value|]. rewrite dom_accumulator.
  induction rows as [|r rows IH] using rev_ind.
  - unfold load_data. simpl. by rewrite dom_empty_L.
  - rewrite load_data_snoc, dom_insert_L, IH, fmap_app, list_to_set_app_L.
    simpl. set_solver.
Qed.
